(** * Beam search of the chainer transformer ASR model

    A shallow embedding of [E2E.recognize] and [E2E.recognize_beam] of
    [espnet/nets/chainer_backend/e2e_asr_transformer.py], together with the
    Python and numpy primitives they are written with.

    Conventions of the embedding:
    - Python floats (scores, weights, length ratios) are exact rationals [Q];
      rounding, infinities and NaN are outside the model.
    - Python ints that come from the configuration ([beam_size], [maxlen],
      [minlen], the step index) are [Z]; token ids and array indices are [nat].
    - Exceptions are values of an error monad; unbounded recursion is bounded
      by fuel and running out of it is a result of its own.
    - The [Namespace] holding the recognition arguments is a mutable object:
      it lives in a store and is passed around by its location. *)

From Stdlib Require Import QArith Qround Qminmax.
From stdpp Require Import base option list strings gmap sorting.

Local Open Scope Z_scope.

(** ** Python and numpy primitives *)

Module Py.

(** [int(x)] on a float: truncation towards zero. *)
Definition int (x : Q) : Z := Z.quot (Qnum x) (Zpos (Qden x)).

(** [l[:n]]: a negative [n] counts from the end of the list. *)
Definition slice_to {A} (n : Z) (l : list A) : list A :=
  if 0 <=? n then take (Z.to_nat n) l
  else take (length l - Z.to_nat (- n))%nat l.

(** [range(n)], empty when [n <= 0]. *)
Definition range (n : Z) : list nat := seq 0 (Z.to_nat n).

(** [max(a, b)] on floats: [b] only if it is strictly greater. *)
Definition fmax (a b : Q) : Q := if Qle_bool b a then a else b.

Section Sorting.
Context {A : Type}.

(** Insertion of [x] behind every element [y] that may stay before it:
    the step of a stable insertion sort. *)
Fixpoint insert_by (before : A → A → bool) (x : A) (l : list A) : list A :=
  match l with
  | [] => [x]
  | y :: l' =>
      if before y x then y :: insert_by before x l' else x :: y :: l'
  end.

Definition sort_by (before : A → A → bool) (l : list A) : list A :=
  foldl (λ acc x, insert_by before x acc) [] l.

Context (key : A → Q).

(** [sorted(l, key=key, reverse=True)]: stable, largest key first. *)
Definition sorted_desc (l : list A) : list A :=
  sort_by (λ y x, Qle_bool (key x) (key y)) l.

(** A stable sort, smallest key first. *)
Definition sorted_asc (l : list A) : list A :=
  sort_by (λ y x, Qle_bool (key y) (key x)) l.

(** The orders that the two sorts establish. *)
Definition ge_key : relation A := λ x y, (key y <= key x)%Q.
Definition le_key : relation A := λ x y, (key x <= key y)%Q.
End Sorting.

(** The entries of a vector, each with its index. *)
Definition indexed (v : list Q) : list (nat * Q) := imap (λ i x, (i, x)) v.

(** [xp.argsort(v)]: the indices of [v], smallest value first. numpy leaves
    the order of equal values open; the model keeps them in index order. *)
Definition argsort (v : list Q) : list nat := (sorted_asc snd (indexed v)).*1.

(** [xp.argsort(v)[::-1]]: the indices of [v], largest value first. *)
Definition argsort_desc (v : list Q) : list nat := reverse (argsort v).

End Py.

(** ** Results of fallible computations *)

Inductive exn := IndexError | KeyError | AttributeError | ZeroDivisionError.

Inductive result (A : Type) :=
  | Ok (a : A)
  | Raise (e : exn)
  | OutOfFuel.
Arguments Ok {A} a.
Arguments Raise {A} e.
Arguments OutOfFuel {A}.

#[global] Instance result_ret : MRet result := λ A a, Ok a.
#[global] Instance result_bind : MBind result := λ A B f m,
  match m with
  | Ok a => f a
  | Raise e => Raise e
  | OutOfFuel => OutOfFuel
  end.

(** [l[i]] for an index [i >= 0]. *)
Definition index {A} (l : list A) (i : nat) : result A :=
  match l !! i with Some x => Ok x | None => Raise IndexError end.

(** [d[k]] for a key that a dict may lack. *)
Definition key {A} (field : option A) : result A :=
  match field with Some x => Ok x | None => Raise KeyError end.

(** [v[ids]]: numpy indexing of a vector by a vector of indices. *)
Fixpoint take_ids {A} (v : list A) (ids : list nat) : result (list A) :=
  match ids with
  | [] => Ok []
  | i :: ids' => x ← index v i; xs ← take_ids v ids'; Ok (x :: xs)
  end.

(** ** Data model *)

(** The attributes of [recog_args] that the search reads. *)
Record Namespace := {
  beam_size : Z;
  penalty : Q;
  ctc_weight : Q;
  lm_weight : Q;
  maxlenratio : Q;
  minlenratio : Q;
}.

(** [recog_args.minlenratio = v] *)
Definition set_minlenratio (v : Q) (a : Namespace) : Namespace :=
  {| beam_size := beam_size a; penalty := penalty a;
     ctc_weight := ctc_weight a; lm_weight := lm_weight a;
     maxlenratio := maxlenratio a; minlenratio := v |}.

(** The store of [Namespace] objects; a reference is a location in it. *)
Abbreviation loc := nat (only parsing).
Abbreviation store := (gmap nat Namespace) (only parsing).

(** A two-dimensional numpy array, such as the CTC posteriors [lpz]. *)
Record Matrix := {
  nrows : nat;
  ncols : nat;
  entry : nat → nat → Q;
}.

(** Modelled from the spec: [recognize_beam] imports [CTC_SCORING_RATIO] from
    [espnet.nets.pytorch_backend.rnn.decoders], which is not among the
    sources; the spec gives the ratio as 1.5, the value the module itself
    also declares at its top. *)
Definition CTC_SCORING_RATIO : Q := 3 # 2.

Section Search.

(** The states of the language model and of the CTC prefix scorer, the
    encoder output and the input features are opaque to the search. *)
Context {LMState CTCState Enc Feat : Type}.

(** A hypothesis is a dict; the keys [rnnlm_prev], [ctc_state_prev] and
    [ctc_score_prev] exist only when the language model, respectively the
    CTC posteriors, are in use. [rnnlm_prev] starts as Python's [None]. *)
Record Hyp := {
  score : Q;
  yseq : list nat;
  rnnlm_prev : option (option LMState);
  ctc_state_prev : option CTCState;
  ctc_score_prev : option Q;
}.

(** The language model: [predict] returns the new state and the vector of
    log-probabilities (a function of the token id), [final] the score of
    ending the sentence. *)
Record RNNLM := {
  predict : option LMState → nat → LMState * (nat → Q);
  final : option LMState → Q;
}.

(** A [CTCPrefixScore] object. Calling it scores every candidate of the
    list it is given by itself, so the model takes one candidate. *)
Record CTCPrefixScorer := {
  initial_state : CTCState;
  prefix_score : list nat → nat → CTCState → Q * CTCState;
}.

(** What the module imports from files that are not among the sources:
    the constructor [CTCPrefixScore(x, blank, eos, xp)] and [end_detect]. *)
Record Imports := {
  CTCPrefixScore : Matrix → nat → nat → CTCPrefixScorer;
  end_detect : list Hyp → nat → bool;
}.

(** The model object [self]. [decoder h ys v] is entry [v] of
    [log_softmax(self.decoder(ys, yy_mask, h, xy_mask)[:, -1])], a vector
    of [odim] entries; [shape0 h] is [h.shape[0]]. *)
Record E2E := {
  odim : nat;
  sos : nat;
  eos : nat;
  encoder : Feat → Enc;
  ctc_log_softmax : Enc → Matrix;
  shape0 : Enc → nat;
  decoder : Enc → list nat → nat → Q;
}.

Context (imports : Imports) (self : E2E).

(** *** One pass of the search, for fixed arguments *)

Section Pass.
Context (h : Enc) (lpz : option Matrix) (args : Namespace)
        (char_list : option (list string)) (rnnlm : option RNNLM).

Definition beam : Z := beam_size args.

Definition maxlen : Z :=
  if Qeq_bool (maxlenratio args) 0 then Z.of_nat (shape0 self h)
  else Z.max 1 (Py.int (maxlenratio args * inject_Z (Z.of_nat (shape0 self h)))).

Definition minlen : Z :=
  Py.int (minlenratio args * inject_Z (Z.of_nat (shape0 self h))).

Definition ctc_beam (m : Matrix) : Z :=
  if negb (Qeq_bool (ctc_weight args) 1) then
    Z.min (Z.of_nat (ncols m)) (Py.int (inject_Z beam * CTC_SCORING_RATIO))
  else Z.of_nat (ncols m).

Definition initial_hyp : Hyp :=
  {| score := 0;
     yseq := [sos self];
     rnnlm_prev := match rnnlm with Some _ => Some None | None => None end;
     ctc_state_prev :=
       match lpz with
       | Some m => Some (initial_state (CTCPrefixScore imports m 0%nat (eos self)))
       | None => None
       end;
     ctc_score_prev := match lpz with Some _ => Some 0%Q | None => None end |}.

(** [local_att_scores], the log-probabilities of the attention decoder. *)
Definition local_att_scores (hyp : Hyp) : list Q :=
  map (decoder self h (yseq hyp)) (seq 0 (odim self)).

(** [rnnlm.predict(hyp['rnnlm_prev'], hyp['yseq'][i])], if there is a
    language model. *)
Definition lm_predict (hyp : Hyp) (i : nat)
  : result (option (LMState * (nat → Q))) :=
  match rnnlm with
  | Some lm =>
      prev ← key (rnnlm_prev hyp);
      y ← index (yseq hyp) i;
      Ok (Some (predict lm prev y))
  | None => Ok None
  end.

(** [v + recog_args.lm_weight * local_lm_scores[:, ids]], if there is a
    language model; [v] holds the scores of the tokens [ids]. *)
Definition add_lm (lm : option (LMState * (nat → Q)))
           (ids : list nat) (v : list Q) : list Q :=
  match lm with
  | Some (_, local_lm_scores) =>
      zip_with (λ id x, x + lm_weight args * local_lm_scores id)%Q ids v
  | None => v
  end.

(** [local_scores] before the CTC scores come in. *)
Definition local_scores (hyp : Hyp) (lm : option (LMState * (nat → Q)))
  : list Q :=
  add_lm lm (seq 0 (odim self)) (local_att_scores hyp).

(** The candidates handed to the CTC prefix scorer:
    [xp.argsort(local_scores, axis=1)[0, ::-1][:ctc_beam]]. *)
Definition ctc_candidates (m : Matrix) (hyp : Hyp)
           (lm : option (LMState * (nat → Q))) : list nat :=
  Py.slice_to (ctc_beam m) (Py.argsort_desc (local_scores hyp lm)).

(** The combined score of one candidate, from its attention score [a]
    and its CTC prefix score [c]. *)
Definition joint_score (prev : Q) (a c : Q) : Q :=
  ((1 - ctc_weight args) * a + ctc_weight args * (c - prev))%Q.

(** The outcome of scoring one hypothesis: the kept scores and ids and,
    with CTC, the kept positions and the scorer's output. *)
Record Scored := {
  local_best_scores : list Q;
  local_best_ids : list nat;
  joint_best_ids : list nat;
  ctc_scores : list Q;
  ctc_states : list CTCState;
}.

Definition score_hyp (hyp : Hyp) (lm : option (LMState * (nat → Q)))
  : result Scored :=
  match lpz with
  | Some m =>
      let ctc_prefix_score := CTCPrefixScore imports m 0%nat (eos self) in
      let ids := ctc_candidates m hyp lm in
      state_prev ← key (ctc_state_prev hyp);
      let ctc := map (λ c, prefix_score ctc_prefix_score (yseq hyp) c state_prev) ids in
      att ← take_ids (local_att_scores hyp) ids;
      score_prev ← key (ctc_score_prev hyp);
      let joint :=
        add_lm lm ids (zip_with (joint_score score_prev) att ctc.*1) in
      let jids := Py.slice_to beam (Py.argsort_desc joint) in
      best_scores ← take_ids joint jids;
      best_ids ← take_ids ids jids;
      Ok {| local_best_scores := best_scores;
            local_best_ids := best_ids;
            joint_best_ids := jids;
            ctc_scores := ctc.*1;
            ctc_states := ctc.*2 |}
  | None =>
      let v := local_scores hyp lm in
      let ids := Py.slice_to beam (Py.argsort_desc v) in
      best_scores ← take_ids v ids;
      Ok {| local_best_scores := best_scores;
            local_best_ids := ids;
            joint_best_ids := [];
            ctc_scores := [];
            ctc_states := [] |}
  end.

(** The body of [for j in six.moves.range(beam)]: the [j]-th child. *)
Definition new_hyp (hyp : Hyp) (lm : option (LMState * (nat → Q)))
           (sc : Scored) (j : nat) : result Hyp :=
  s ← index (local_best_scores sc) j;
  y ← index (local_best_ids sc) j;
  ctc ← match lpz with
        | Some _ =>
            jj ← index (joint_best_ids sc) j;
            st ← index (ctc_states sc) jj;
            cs ← index (ctc_scores sc) jj;
            Ok (Some st, Some cs)
        | None => Ok (None, None)
        end;
  Ok {| score := (score hyp + s)%Q;
        yseq := yseq hyp ++ [y];
        rnnlm_prev := match lm with Some (st, _) => Some (Some st) | None => None end;
        ctc_state_prev := ctc.1;
        ctc_score_prev := ctc.2 |}.

Fixpoint new_hyps (hyp : Hyp) (lm : option (LMState * (nat → Q)))
         (sc : Scored) (js : list nat) : result (list Hyp) :=
  match js with
  | [] => Ok []
  | j :: js' =>
      x ← new_hyp hyp lm sc j;
      xs ← new_hyps hyp lm sc js';
      Ok (x :: xs)
  end.

(** The children of one hypothesis at step [i]. *)
Definition expand (hyp : Hyp) (i : nat) : result (list Hyp) :=
  lm ← lm_predict hyp i;
  sc ← score_hyp hyp lm;
  new_hyps hyp lm sc (Py.range beam).

(** [for hyp in hyps]: expand, then sort and cut [hyps_best_kept]. *)
Fixpoint prune (hyps : list Hyp) (i : nat) (hyps_best_kept : list Hyp)
  : result (list Hyp) :=
  match hyps with
  | [] => Ok hyps_best_kept
  | hyp :: hyps' =>
      children ← expand hyp i;
      prune hyps' i
        (Py.slice_to beam (Py.sorted_desc score (hyps_best_kept ++ children)))
  end.

(** The text logged for a hypothesis:
    [[char_list[int(x)] for x in hyp['yseq'][1:]]]. *)
Definition render (cl : list string) (hyp : Hyp) : result (list string) :=
  take_ids cl (drop 1 (yseq hyp)).

(** The debug line on [hyps[0]], written when [char_list] is given. *)
Definition log_best (hyps : list Hyp) : result unit :=
  match char_list with
  | Some cl => hyp ← index hyps 0; _ ← render cl hyp; Ok ()
  | None => Ok ()
  end.

Fixpoint log_each (cl : list string) (hyps : list Hyp) : result unit :=
  match hyps with
  | [] => Ok ()
  | hyp :: hyps' => _ ← render cl hyp; log_each cl hyps'
  end.

(** The debug lines on the remaining hypotheses. *)
Definition log_remained (hyps : list Hyp) : result unit :=
  match char_list with
  | Some cl => log_each cl hyps
  | None => Ok ()
  end.

(** [hyp['yseq'].append(self.eos)] *)
Definition append_eos (hyp : Hyp) : Hyp :=
  {| score := score hyp;
     yseq := yseq hyp ++ [eos self];
     rnnlm_prev := rnnlm_prev hyp;
     ctc_state_prev := ctc_state_prev hyp;
     ctc_score_prev := ctc_score_prev hyp |}.

(** [hyp['score'] += v] *)
Definition add_score (v : Q) (hyp : Hyp) : Hyp :=
  {| score := (score hyp + v)%Q;
     yseq := yseq hyp;
     rnnlm_prev := rnnlm_prev hyp;
     ctc_state_prev := ctc_state_prev hyp;
     ctc_score_prev := ctc_score_prev hyp |}.

(** [if i == maxlen - 1: for hyp in hyps: hyp['yseq'].append(self.eos)] *)
Definition force_eos (i : nat) (hyps : list Hyp) : list Hyp :=
  if Z.of_nat i =? maxlen - 1 then map append_eos hyps else hyps.

(** What an ended hypothesis of sufficient length goes through before it
    is stored: the length penalty and the final score of the language
    model. *)
Definition finish (i : nat) (hyp : Hyp) : result Hyp :=
  let hyp1 := add_score (inject_Z (Z.of_nat i + 1) * penalty args)%Q hyp in
  match rnnlm with
  | Some lm =>
      prev ← key (rnnlm_prev hyp1);
      Ok (add_score (lm_weight args * final lm prev)%Q hyp1)
  | None => Ok hyp1
  end.

(** The loop that moves ended hypotheses to [ended_hyps] and the others
    to [remained_hyps]. *)
Fixpoint collect_ended (i : nat) (hyps ended_hyps remained_hyps : list Hyp)
  : result (list Hyp * list Hyp) :=
  match hyps with
  | [] => Ok (ended_hyps, remained_hyps)
  | hyp :: hyps' =>
      y ← match last (yseq hyp) with
          | Some y => Ok y
          | None => Raise IndexError
          end;
      if (y =? eos self)%nat then
        if minlen <? Z.of_nat (length (yseq hyp)) then
          hyp' ← finish i hyp;
          collect_ended i hyps' (ended_hyps ++ [hyp']) remained_hyps
        else collect_ended i hyps' ended_hyps remained_hyps
      else collect_ended i hyps' ended_hyps (remained_hyps ++ [hyp])
  end.

(** The body of [for i in six.moves.range(maxlen)] up to the point where
    the loop decides how to go on. *)
Definition step (i : nat) (hyps ended_hyps : list Hyp)
  : result (list Hyp * list Hyp) :=
  pruned ← prune hyps i [];
  _ ← log_best pruned;
  collect_ended i (force_eos i pruned) ended_hyps [].

(** The loop over the steps [i]; the result is [ended_hyps] as the loop
    leaves it. *)
Fixpoint search_loop (steps : list nat) (hyps ended_hyps : list Hyp)
  : result (list Hyp) :=
  match steps with
  | [] => Ok ended_hyps
  | i :: steps' =>
      '(ended_hyps', remained_hyps) ← step i hyps ended_hyps;
      if end_detect imports ended_hyps' i && Qeq_bool (maxlenratio args) 0
      then Ok ended_hyps'
      else
        match remained_hyps with
        | [] => Ok ended_hyps'
        | _ :: _ =>
            _ ← log_remained remained_hyps;
            search_loop steps' remained_hyps ended_hyps'
        end
  end.

(** One pass from the initialization to the end of the loop. *)
Definition search : result (list Hyp) :=
  search_loop (Py.range maxlen) [initial_hyp] [].

(** The info line on the best result divides its score by the length of
    its token sequence. *)
Definition log_total (nbest_hyps : list Hyp) : result unit :=
  hyp ← index nbest_hyps 0;
  if (length (yseq hyp) =? 0)%nat then Raise ZeroDivisionError else Ok ().

End Pass.

(** *** [recognize_beam] and [recognize] *)

(** The copy of [recog_args] that [Namespace] builds from
    [vars(recog_args)]: a new object with the same attributes, at a
    location the store does not use yet. *)
Definition copy_namespace (args : Namespace) (σ : store) : loc * store :=
  let r := fresh (dom σ) in (r, <[r := args]> σ).

(** [recog_args.minlenratio = max(0.0, recog_args.minlenratio - 0.1)] *)
Definition relax_minlenratio (r : loc) (σ : store) : store :=
  alter (λ a, set_minlenratio (Py.fmax 0 (minlenratio a - (1 # 10))) a) r σ.

Fixpoint recognize_beam (fuel : nat) (h : Enc) (lpz : option Matrix)
         (recog_args : loc) (char_list : option (list string))
         (rnnlm : option RNNLM) (σ : store) : store * result (list Hyp) :=
  match fuel with
  | O => (σ, OutOfFuel)
  | S fuel' =>
      match σ !! recog_args with
      | None => (σ, Raise AttributeError)
      | Some args =>
          match search h lpz args char_list rnnlm with
          | Ok ended_hyps =>
              let nbest_hyps := Py.sorted_desc score ended_hyps in
              if (length nbest_hyps =? 0)%nat then
                let '(recog_args', σ1) := copy_namespace args σ in
                let σ2 := relax_minlenratio recog_args' σ1 in
                recognize_beam fuel' h lpz recog_args' char_list rnnlm σ2
              else
                (σ, _ ← log_total nbest_hyps; Ok nbest_hyps)
          | Raise e => (σ, Raise e)
          | OutOfFuel => (σ, OutOfFuel)
          end
      end
  end.

Definition recognize (fuel : nat) (x_block : Feat) (recog_args : loc)
           (char_list : option (list string)) (rnnlm : option RNNLM)
           (σ : store) : store * result (list Hyp) :=
  let xs := encoder self x_block in
  match σ !! recog_args with
  | None => (σ, Raise AttributeError)
  | Some args =>
      let lpz :=
        if Qle_bool (ctc_weight args) 0 then None
        else Some (ctc_log_softmax self xs) in
      let rnnlm := if Qeq_bool (lm_weight args) 0 then None else rnnlm in
      recognize_beam fuel xs lpz recog_args char_list rnnlm σ
  end.

End Search.

(** ** Vocabulary of the specification *)

Section Vocabulary.
Context {LMState CTCState Enc Feat : Type}.
Context (self : @E2E Enc Feat) (h : Enc) (args : Namespace).
Context (rnnlm : option (@RNNLM LMState)).

Implicit Types hyp : @Hyp LMState CTCState.

(** The hypothesis ends in EOS. *)
Definition ends_with_eos hyp : Prop := last (yseq hyp) = Some (eos self).

(** The token sequence, SOS included, is longer than [minlen]. *)
Definition long_enough hyp : Prop :=
  minlen self h args < Z.of_nat (length (yseq hyp)).

#[global] Instance ends_with_eos_dec hyp : Decision (ends_with_eos hyp).
Proof. unfold ends_with_eos. apply _. Defined.

#[global] Instance long_enough_dec hyp : Decision (long_enough hyp).
Proof. unfold long_enough. apply _. Defined.

(** [hyp'] is what the ended list stores for [hyp] at step [i]: the same
    tokens, the score raised by [(i + 1) * penalty] and, with a language
    model, by [lm_weight] times its final score. *)
Definition ended_from (i : nat) hyp hyp' : Prop :=
  yseq hyp' = yseq hyp ∧
  match rnnlm with
  | Some lm =>
      ∃ prev, rnnlm_prev hyp = Some prev ∧
        score hyp' = (score hyp + inject_Z (Z.of_nat i + 1) * penalty args
                      + lm_weight args * final lm prev)%Q
  | None =>
      score hyp' = (score hyp + inject_Z (Z.of_nat i + 1) * penalty args)%Q
  end.

(** What is stored in the ended list ends in EOS and is long enough. *)
Definition storable hyp : Prop := ends_with_eos hyp ∧ long_enough hyp.

(** The arguments of the retry: [minlenratio] lowered by 0.1, not below 0. *)
Definition relaxed : Namespace :=
  set_minlenratio (Py.fmax 0 (minlenratio args - (1 # 10))) args.

(** The combined score of the candidate token [c] for [hyp], in the words of
    the spec: [(1 - ctc_weight) * attention + ctc_weight * (ctc - previous)],
    plus [lm_weight * lm] when there is a language model. [st] and [prev] are
    the CTC state and the CTC score that [hyp] carries. *)
Definition combined_score (scorer : @CTCPrefixScorer CTCState) hyp
           (lm : option (LMState * (nat → Q))) (st : CTCState) (prev : Q)
           (c : nat) : Q :=
  let attention := decoder self h (yseq hyp) c in
  let ctc := (prefix_score scorer (yseq hyp) c st).1 in
  match lm with
  | Some (_, lm_scores) =>
      ((1 - ctc_weight args) * attention + ctc_weight args * (ctc - prev)
       + lm_weight args * lm_scores c)%Q
  | None =>
      ((1 - ctc_weight args) * attention + ctc_weight args * (ctc - prev))%Q
  end.

End Vocabulary.

(** ** Small models to run the search on *)

Module Toy.

(** Four output units: blank, two letters, and the unit that stands for both
    SOS and EOS. The encoder output is reduced to its number of frames. *)
Definition BLANK : nat := 0.
Definition A : nat := 1.
Definition B : nat := 2.
Definition EOS : nat := 3.

(** A decoder that ends at once: EOS is its best token after any prefix. *)
Definition eager (h : nat) (ys : list nat) (v : nat) : Q :=
  match v with
  | 3%nat => -1 # 10
  | 1%nat => -2 # 1
  | 2%nat => -3 # 1
  | _ => -5 # 1
  end.

(** A decoder that spells [A]s and prefers EOS once the prefix is longer
    than half of the frames. *)
Definition speller (h : nat) (ys : list nat) (v : nat) : Q :=
  if (h <? 2 * length ys)%nat then eager h ys v
  else
    match v with
    | 1%nat => -1 # 10
    | 2%nat => -2 # 1
    | 3%nat => -3 # 1
    | _ => -5 # 1
    end.

(** Posteriors that are the same in every frame. *)
Definition posteriors (frames : nat) : Matrix :=
  {| nrows := frames;
     ncols := 4;
     entry := λ _ v, match v with 1%nat => -1 # 5 | _ => -2 # 1 end |}.

(** A scorer without state: the CTC score of a prefix grows by the
    posterior of the candidate in the first frame. *)
Definition imports : @Imports unit unit :=
  {| CTCPrefixScore := λ m blank eos,
       {| initial_state := ();
          prefix_score := λ ys c st,
            ((inject_Z (Z.of_nat (length ys)) * entry m 0 c)%Q, ()) |};
     end_detect := λ _ _, false |}.

Definition model (dec : nat → list nat → nat → Q) : @E2E nat nat :=
  {| odim := 4; sos := EOS; eos := EOS;
     encoder := λ x, x;
     ctc_log_softmax := posteriors;
     shape0 := λ h, h;
     decoder := dec |}.

(** A language model that likes [B]. *)
Definition lm : @RNNLM unit :=
  {| predict := λ _ _, ((), λ v, match v with 2%nat => -1 # 2 | _ => -1 # 1 end);
     final := λ _, -1 # 4 |}.

Definition recog_args (beam_size : Z) (ctc_weight minlenratio : Q) : Namespace :=
  {| beam_size := beam_size; penalty := 1 # 10; ctc_weight := ctc_weight;
     lm_weight := 0; maxlenratio := 0; minlenratio := minlenratio |}.


(** Arguments that give the language model a weight of 4. *)
Definition lm_args : Namespace :=
  {| beam_size := 1; penalty := 0; ctc_weight := 1 # 2; lm_weight := 4;
     maxlenratio := 0; minlenratio := 0 |}.


(** The hypothesis with the given score and tokens, without CTC and
    language model state. *)
Definition hyp (s : Q) (ys : list nat) : @Hyp unit unit :=
  {| score := s; yseq := ys; rnnlm_prev := None;
     ctc_state_prev := None; ctc_score_prev := None |}.

(** The same with the state of the stateless CTC scorer. *)
Definition ctc_hyp (s : Q) (ys : list nat) (ctc : Q) : @Hyp unit unit :=
  {| score := s; yseq := ys; rnnlm_prev := None;
     ctc_state_prev := Some (); ctc_score_prev := Some ctc |}.

End Toy.

(** ** Vocabulary for the shape of hypotheses and for what a call can raise *)

(** The computation returns, or raises [IndexError]: nothing else. *)
Definition only_IndexError {A} (r : result A) : Prop :=
  match r with
  | Ok _ => True
  | Raise e => e = IndexError
  | OutOfFuel => False
  end.

Section Shape.
Context {LMState CTCState Enc Feat : Type}.
Context (self : @E2E Enc Feat) (h : Enc) (lpz : option Matrix) (args : Namespace).
Context (rnnlm : option (@RNNLM LMState)).

Implicit Types hyp : @Hyp LMState CTCState.

(** The hypothesis has the keys that the search reads with these
    collaborators. *)
Definition has_keys hyp : Prop :=
  (is_Some rnnlm → is_Some (rnnlm_prev hyp)) ∧
  (is_Some lpz → is_Some (ctc_state_prev hyp) ∧ is_Some (ctc_score_prev hyp)).

(** A hypothesis of the beam at the start of step [i]: SOS, then [i] tokens
    none of which is EOS. *)
Definition live (i : nat) hyp : Prop :=
  (∃ toks, yseq hyp = sos self :: toks ∧ length toks = i ∧
           Forall (λ y, y ≠ eos self) toks) ∧
  has_keys hyp.

(** A hypothesis as the expansion of step [i] makes it: a live hypothesis
    and one more token, which may be EOS. *)
Definition child (i : nat) hyp : Prop :=
  (∃ toks y, yseq hyp = sos self :: toks ++ [y] ∧ length toks = i ∧
             Forall (λ y, y ≠ eos self) toks) ∧
  has_keys hyp.

(** A hypothesis of the ended list: SOS, tokens other than EOS, at most one
    token more, and EOS; no longer than [maxlen + 2]. *)
Definition complete hyp : Prop :=
  ∃ toks tail,
    yseq hyp = sos self :: toks ++ tail ++ [eos self] ∧
    Forall (λ y, y ≠ eos self) toks ∧
    (length tail <= 1)%nat ∧
    Z.of_nat (length (yseq hyp)) <= maxlen self h args + 2.

(** The beam fits the vocabulary, and the columns of the posteriors. *)
Definition beam_fits : Prop :=
  0 <= beam_size args <= Z.of_nat (odim self) ∧
  ∀ m, lpz = Some m → beam_size args <= Z.of_nat (ncols m).

End Shape.

(** ** The greedy search of [recognize_beam2] *)

(** The exceptions of the functions below, and their results. *)
Inductive error :=
  | NotImplementedError
  | ValueError
  | AssertionError
  | TypeError
  | AttributeErrorOfNone
  | ZeroDivisionErrorOfPow.

Inductive outcome (A : Type) :=
  | Return (a : A)
  | Throw (e : error).
Arguments Return {A} a.
Arguments Throw {A} e.

#[global] Instance outcome_ret : MRet outcome := λ A a, Return a.
#[global] Instance outcome_bind : MBind outcome := λ A B f m,
  match m with
  | Return a => f a
  | Throw e => Throw e
  end.

Module Np.

(** The step of a maximum search from the left: the first of equal values
    stays. The accumulator holds the index and the value of the best entry
    so far, and the index of the entry that comes next. *)
Definition max_step (acc : nat * Q * nat) (x : Q) : nat * Q * nat :=
  let '(best, value, i) := acc in
  if Qle_bool x value then (best, value, S i) else (i, x, S i).

(** The index and the value of the first maximum of a vector, if it has an
    entry. *)
Definition first_max (v : list Q) : option (nat * Q) :=
  match v with
  | [] => None
  | x :: v' => Some (foldl max_step (0%nat, x, 1%nat) v').1
  end.

(** [v.max()]: numpy refuses an empty vector. *)
Definition max (v : list Q) : outcome Q :=
  match first_max v with
  | Some (_, value) => Return value
  | None => Throw ValueError
  end.

(** [v.argmax()]: the index of the first maximum. *)
Definition argmax (v : list Q) : outcome nat :=
  match first_max v with
  | Some (i, _) => Return i
  | None => Throw ValueError
  end.

End Np.

(** The dict of a result of the greedy search. *)
Record GreedyHyp := {
  greedy_score : Q;
  greedy_yseq : list nat;
}.

Section Greedy.
Context {Enc Feat : Type}.

(** [self] as before; of the encoder output [xs] the search reads
    [xs.shape[1]], here [shape1]; [prob x_block ys v] is entry [v] of
    [log_softmax(self.decoder(ys, yy_mask, xs, xy_mask)[:, -1])], where [xs]
    and the mask behind [xy_mask] are what the encoder makes of [x_block]. *)
Context (self : @E2E Enc Feat) (shape1 : Enc → nat).
Context (prob : Feat → list nat → nat → Q).

(** The body of [for step in range(maxlen)], with its [break]. *)
Fixpoint greedy_loop (x_block : Feat) (maxlen : nat) (steps : list nat)
         (ys : list nat) (score : Q) : outcome (list nat * Q) :=
  match steps with
  | [] => Return (ys, score)
  | step :: steps' =>
      let p := map (prob x_block ys) (seq 0 (odim self)) in
      max_prob ← Np.max p;
      next_id ← Np.argmax p;
      let score := (score + max_prob)%Q in
      let next_id :=
        if (Z.of_nat step =? Z.of_nat maxlen - 1) then eos self else next_id in
      let ys := ys ++ [next_id] in
      if (next_id =? eos self)%nat then Return (ys, score)
      else greedy_loop x_block maxlen steps' ys score
  end.

Definition recognize_beam2 (x_block : Feat) (recog_args : Namespace)
  : outcome (list GreedyHyp) :=
  let xs := encoder self x_block in
  if negb (Qle_bool (ctc_weight recog_args) 0) then Throw NotImplementedError
  else if beam_size recog_args =? 1 then
    let maxlen := (shape1 xs + 1)%nat in
    '(ys, score) ← greedy_loop x_block maxlen (seq 0 maxlen) [sos self] 0;
    Return [{| greedy_score := score; greedy_yseq := ys |}]
  else Throw NotImplementedError.

End Greedy.

Section GreedyVocabulary.
Context {Enc Feat : Type}.
Context (self : @E2E Enc Feat) (prob : Feat → list nat → nat → Q).

(** Token [v] has the largest log-probability of the vocabulary after the
    prefix [ys]. *)
Definition best_token (x_block : Feat) (ys : list nat) (v : nat) : Prop :=
  (v < odim self)%nat ∧
  ∀ u, (u < odim self)%nat → (prob x_block ys u <= prob x_block ys v)%Q.

(** [q] is the largest log-probability after the prefix [ys]. *)
Definition best_prob (x_block : Feat) (ys : list nat) (q : Q) : Prop :=
  ∃ v, best_token x_block ys v ∧ q = prob x_block ys v.

End GreedyVocabulary.

(** ** The masks of the decoder *)

(** A two-dimensional integer array: a batch of rows of token ids (or of
    frame marks), [-1] where a row is padded. *)
Record Block := {
  block_batch : nat;
  block_length : nat;
  block_at : nat → nat → Z;
}.

(** A three-dimensional boolean array. *)
Record Mask := {
  mask_batch : nat;
  mask_rows : nat;
  mask_cols : nat;
  mask_at : nat → nat → nat → bool;
}.

Module Bc.

(** The size of an axis of a broadcast result: the two sizes agree, or one
    of them is 1. *)
Definition size (n m : nat) : outcome nat :=
  if (n =? m)%nat then Return n
  else if (n =? 1)%nat then Return m
  else if (m =? 1)%nat then Return n
  else Throw ValueError.

(** The index into an axis of size [n] for the index [i] of the result: an
    axis of size 1 is repeated. *)
Definition pick (n i : nat) : nat := if (n =? 1)%nat then 0%nat else i.

End Bc.

(** [(target_block[:, None, :] >= 0) * (source_block[:, :, None] >= 0)] *)
Definition make_attention_mask (source_block target_block : Block)
  : outcome Mask :=
  batch ← Bc.size (block_batch target_block) (block_batch source_block);
  Return {|
    mask_batch := batch;
    mask_rows := block_length source_block;
    mask_cols := block_length target_block;
    mask_at := λ b s t,
      (0 <=? block_at target_block (Bc.pick (block_batch target_block) b) t)
      && (0 <=? block_at source_block (Bc.pick (block_batch source_block) b) s)
  |}.

(** [(arange[None, ] <= arange[:, None])[None, ]], broadcast to the batch. *)
Definition make_history_mask (block : Block) : Mask :=
  {| mask_batch := block_batch block;
     mask_rows := block_length block;
     mask_cols := block_length block;
     mask_at := λ _ i j, (j <=? i)%nat |}.

(** [mask *= other]: [other] is broadcast to the shape of [mask]. *)
Definition mask_imul (mask other : Mask) : outcome Mask :=
  let fits n m := ((m =? n) || (m =? 1))%nat in
  if fits (mask_batch mask) (mask_batch other)
     && fits (mask_rows mask) (mask_rows other)
     && fits (mask_cols mask) (mask_cols other)
  then
    Return {|
      mask_batch := mask_batch mask;
      mask_rows := mask_rows mask;
      mask_cols := mask_cols mask;
      mask_at := λ b i j,
        mask_at mask b i j
        && mask_at other (Bc.pick (mask_batch other) b)
             (Bc.pick (mask_rows other) i) (Bc.pick (mask_cols other) j)
    |}
  else Throw ValueError.

(** The mask of the decoder on its own input, as [forward],
    [recognize_beam2] and [recognize_beam] build it:
    [yy_mask = self.make_attention_mask(ys, ys)] and then
    [yy_mask *= self.make_history_mask(ys)]. *)
Definition decoder_self_mask (ys : Block) : outcome Mask :=
  yy_mask ← make_attention_mask ys ys;
  mask_imul yy_mask (make_history_mask ys).

(** [F.expand_dims(xp.array(hyp['yseq']), axis=0)]: the tokens of a
    hypothesis as a batch of one row. *)
Definition yseq_block (yseq : list nat) : Block :=
  {| block_batch := 1;
     block_length := length yseq;
     block_at := λ _ i, Z.of_nat (yseq !!! i) |}.

(** [xp.ones((1, n))] *)
Definition ones_block (n : nat) : Block :=
  {| block_batch := 1; block_length := n; block_at := λ _ _, 1 |}.

(** ** The CTC head of the model and the loss of [forward] *)

Inductive CTCImpl := BuiltinCTC | WarpCTC.

(** The attributes of [args] that decide the loss of the model. *)
Record InitArgs := {
  mtlalpha : Q;
  ctc_type : string;
}.

(** What [__init__] leaves in [self] of them, with the ids of SOS and EOS. *)
Record Heads := {
  self_mtlalpha : Q;
  self_sos : Z;
  self_eos : Z;
  self_ctc : option CTCImpl;
}.

(** [E2E.__init__], as far as it decides these attributes. [links] is the
    outcome of building the encoder, the decoder and the criterion, which
    comes after the assertion on [mtlalpha] and before the choice of the CTC
    implementation. *)
Definition init (odim : Z) (args : InitArgs) (links : outcome ())
  : outcome Heads :=
  if negb (Qle_bool 0 (mtlalpha args) && Qle_bool (mtlalpha args) 1)
  then Throw AssertionError
  else
    _ ← links;
    ctc ← (if negb (Qle_bool (mtlalpha args) 0) then
             if String.eqb (ctc_type args) "builtin" then Return (Some BuiltinCTC)
             else if String.eqb (ctc_type args) "warpctc" then Return (Some WarpCTC)
             else Throw ValueError
           else Return None);
    Return {| self_mtlalpha := mtlalpha args;
              self_sos := odim - 1;
              self_eos := odim - 1;
              self_ctc := ctc |}.

(** The losses that [forward] reports: [self.loss], [loss_att_data] and
    [loss_ctc_data]. *)
Record Losses := {
  loss : Q;
  loss_att_data : option Q;
  loss_ctc_data : option Q;
}.

(** The choice of the loss in [forward]. [loss_ctc] is [None] when
    [self.ctc] is, and what the CTC implementation computes otherwise; using
    [None] as a loss fails. *)
Definition select_loss (self : Heads) (loss_att : Q) (ctc_loss : CTCImpl → Q)
  : outcome Losses :=
  let loss_ctc := ctc_loss <$> self_ctc self in
  let alpha := self_mtlalpha self in
  if Qeq_bool alpha 0 then
    Return {| loss := loss_att;
              loss_att_data := Some loss_att; loss_ctc_data := None |}
  else if Qeq_bool alpha 1 then
    match loss_ctc with
    | Some c =>
        Return {| loss := c; loss_att_data := None; loss_ctc_data := Some c |}
    | None => Throw AttributeErrorOfNone
    end
  else
    match loss_ctc with
    | Some c =>
        Return {| loss := (alpha * c + (1 - alpha) * loss_att)%Q;
                  loss_att_data := Some loss_att; loss_ctc_data := Some c |}
    | None => Throw TypeError
    end.

(** ** The learning rate schedule [VaswaniRule] *)

Record VaswaniRule := {
  _attr : string;
  _d_inv05 : Q;
  _warmup_steps_inv15 : Q;
  _init : option Q;
  _target : option Q;
  _optimizer : option nat;
  _t : Z;
  _last_value : option Q;
}.

Definition set_init (v : Q) (e : VaswaniRule) : VaswaniRule :=
  {| _attr := _attr e; _d_inv05 := _d_inv05 e;
     _warmup_steps_inv15 := _warmup_steps_inv15 e; _init := Some v;
     _target := _target e; _optimizer := _optimizer e; _t := _t e;
     _last_value := _last_value e |}.

Definition set_target (v : option Q) (e : VaswaniRule) : VaswaniRule :=
  {| _attr := _attr e; _d_inv05 := _d_inv05 e;
     _warmup_steps_inv15 := _warmup_steps_inv15 e; _init := _init e;
     _target := v; _optimizer := _optimizer e; _t := _t e;
     _last_value := _last_value e |}.

Definition set_t (t : Z) (e : VaswaniRule) : VaswaniRule :=
  {| _attr := _attr e; _d_inv05 := _d_inv05 e;
     _warmup_steps_inv15 := _warmup_steps_inv15 e; _init := _init e;
     _target := _target e; _optimizer := _optimizer e; _t := t;
     _last_value := _last_value e |}.

Definition set_last_value (v : Q) (e : VaswaniRule) : VaswaniRule :=
  {| _attr := _attr e; _d_inv05 := _d_inv05 e;
     _warmup_steps_inv15 := _warmup_steps_inv15 e; _init := _init e;
     _target := _target e; _optimizer := _optimizer e; _t := _t e;
     _last_value := Some v |}.

(** The optimizers are objects with float attributes, held in a store; the
    trainer is known by the location of its main optimizer. *)
Abbreviation Optimizers := (gmap nat (gmap string Q)) (only parsing).

Section Vaswani.

(** [t ** (-0.5)] for a step count [t > 0]: a float that is rational only
    for squares, so the power is left open. *)
Context (inv_sqrt : Z → Q).

(** [min(a, b)] on floats: [b] only if it is strictly smaller. *)
Definition fmin (a b : Q) : Q := if Qle_bool a b then a else b.

(** [min(t ** (-0.5), b)]: the power of 0 fails; the power of a negative
    integer is a complex number, which [min] cannot compare with a float. *)
Definition min_inv_sqrt (t : Z) (b : Q) : outcome Q :=
  if t =? 0 then Throw ZeroDivisionErrorOfPow
  else if t <? 0 then Throw TypeError
  else Return (fmin (inv_sqrt t) b).

(** [self._optimizer or trainer.updater.get_optimizer('main')] *)
Definition _get_optimizer (self : VaswaniRule) (main : nat) : nat :=
  match _optimizer self with Some o => o | None => main end.

(** [setattr(optimizer, self._attr, value)] and the note of the value. *)
Definition _update_value (self : VaswaniRule) (optimizer : nat) (value : Q)
           (σ : Optimizers) : VaswaniRule * Optimizers :=
  (set_last_value value self, alter (insert (_attr self) value) optimizer σ).

Definition initialize (self : VaswaniRule) (main : nat) (σ : Optimizers)
  : VaswaniRule * Optimizers :=
  let optimizer := _get_optimizer self main in
  (* ensure that _init is set *)
  let init :=
    match _init self with
    | Some v => v
    | None => (_d_inv05 self * (1 * _warmup_steps_inv15 self))%Q
    end in
  let self := set_init init self in
  match _last_value self with
  | Some v => _update_value self optimizer v σ
  | None => _update_value self optimizer init σ
  end.

(** [__call__]: the rule and the store as the call leaves them, also when
    it raises. *)
Definition call (self : VaswaniRule) (main : nat) (σ : Optimizers)
  : VaswaniRule * Optimizers * outcome () :=
  let self := set_t (_t self + 1) self in
  let optimizer := _get_optimizer self main in
  match min_inv_sqrt (_t self) (inject_Z (_t self) * _warmup_steps_inv15 self) with
  | Throw e => (self, σ, Throw e)
  | Return m =>
      let value := (_d_inv05 self * m)%Q in
      let '(self, σ) := _update_value self optimizer value σ in
      (self, σ, Return ())
  end.

(** [n] calls in a row, up to the first that raises. *)
Fixpoint calls (n : nat) (self : VaswaniRule) (main : nat) (σ : Optimizers)
  : VaswaniRule * Optimizers * outcome () :=
  match n with
  | O => (self, σ, Return ())
  | S n' =>
      match call self main σ with
      | (self', σ', Return _) => calls n' self' main σ'
      | failed => failed
      end
  end.

(** The value of the schedule at step [t]. *)
Definition schedule (self : VaswaniRule) (t : Z) : Q :=
  (_d_inv05 self * fmin (inv_sqrt t) (inject_Z t * _warmup_steps_inv15 self))%Q.

End Vaswani.

(** ** Small instances for the greedy search, the loss and the schedule *)

Module Small.

(** The names of the four output units of the toy models. *)
Definition char_list : list string := ["<blank>"; "a"; "b"; "<eos>"].

(** A model that is trained on both losses. *)
Definition init_args : InitArgs := {| mtlalpha := 3 # 10; ctc_type := "warpctc" |}.

(** [t ** (-0.5)] on the squares up to 16, where it is rational. *)
Definition inv_sqrt (t : Z) : Q :=
  match t with
  | 1 => 1
  | 4 => 1 # 2
  | 9 => 1 # 3
  | 16 => 1 # 4
  | _ => 0
  end.

(** The rule [VaswaniRule('alpha', 4, warmup_steps=4)] at step count [t]. *)
Definition rule (t : Z) : VaswaniRule :=
  {| _attr := "alpha"; _d_inv05 := 1 # 2; _warmup_steps_inv15 := 1 # 8;
     _init := None; _target := None; _optimizer := None;
     _t := t; _last_value := None |}.

(** One optimizer, the main one, with two attributes. *)
Definition optimizers : Optimizers :=
  {[ 0%nat := {[ "alpha" := 0%Q; "eps" := 1 # 100 ]} ]}.

End Small.

(** * Facts about the primitives *)

Module PyFacts.
Import Py.

Lemma int_floor (x : Q) : (0 <= x)%Q → int x = Qfloor x.
Proof.
  destruct x as [n d]. unfold Qle, int, Qfloor. simpl. intros Hn.
  apply Z.quot_div_nonneg; lia.
Qed.

Lemma length_slice_to_le {A} (n : Z) (l : list A) :
  0 <= n → Z.of_nat (length (slice_to n l)) <= n.
Proof.
  intros Hn. unfold slice_to.
  destruct (Z.leb_spec 0 n) as [_|?]; [|lia].
  rewrite length_take. lia.
Qed.

Lemma slice_to_take {A} (n : Z) (l : list A) :
  0 <= n → slice_to n l = take (Z.to_nat n) l.
Proof.
  intros Hn. unfold slice_to. destruct (Z.leb_spec 0 n); [done|lia].
Qed.

Lemma slice_to_sublist {A} (n : Z) (l : list A) : slice_to n l `sublist_of` l.
Proof. unfold slice_to. destruct (0 <=? n); apply sublist_take. Qed.

Section Sorting.
Context {A : Type}.

Lemma insert_by_perm before (x : A) l : insert_by before x l ≡ₚ x :: l.
Proof.
  induction l as [|y l IH]; simpl; [done|].
  destruct (before y x); [|done].
  rewrite IH. apply Permutation_swap.
Qed.

Lemma sort_by_perm before (l : list A) : sort_by before l ≡ₚ l.
Proof.
  unfold sort_by. change l with ([] ++ l) at 2.
  generalize (@nil A). induction l as [|x l IH]; intros acc; simpl.
  - by rewrite app_nil_r.
  - rewrite IH, insert_by_perm. simpl. apply Permutation_middle.
Qed.

(** The order a sort establishes, from a test [before] that decides a
    total preorder [R]. *)
Context (R : relation A) `{!Transitive R} (before : A → A → bool).
Context (before_true : ∀ y x, before y x = true → R y x).
Context (before_false : ∀ y x, before y x = false → R x y).

Lemma insert_by_sorted x l :
  StronglySorted R l → StronglySorted R (insert_by before x l).
Proof.
  induction 1 as [|y l Hl IH Hy]; simpl.
  - repeat constructor.
  - destruct (before y x) eqn:E.
    + constructor; [done|].
      rewrite insert_by_perm. constructor; [by apply before_true|done].
    + apply before_false in E.
      constructor; [by constructor|].
      constructor; [done|].
      eapply Forall_impl; [exact Hy|].
      intros z Hz. by etrans.
  Qed.

Lemma sort_by_sorted l : StronglySorted R (sort_by before l).
Proof.
  unfold sort_by. generalize (SSorted_nil R).
  generalize (@nil A). induction l as [|x l IH]; intros acc Hacc; simpl.
  - done.
  - by apply IH, insert_by_sorted.
Qed.
End Sorting.

Lemma Qle_bool_false (x y : Q) : Qle_bool x y = false → (y <= x)%Q.
Proof.
  intros E. apply Qlt_le_weak, Qnot_le_lt. intros H.
  apply Qle_bool_iff in H. congruence.
Qed.

Section Keys.
Context {A : Type} (key : A → Q).

#[local] Instance ge_key_trans : Transitive (ge_key key).
Proof. intros x y z ??. unfold ge_key in *. by eapply Qle_trans. Qed.

#[local] Instance le_key_trans : Transitive (le_key key).
Proof. intros x y z ??. unfold le_key in *. by eapply Qle_trans. Qed.

Lemma sorted_desc_perm l : sorted_desc key l ≡ₚ l.
Proof. apply sort_by_perm. Qed.

Lemma sorted_desc_sorted l : StronglySorted (ge_key key) (sorted_desc key l).
Proof.
  apply sort_by_sorted; [apply _| |]; intros y x E; unfold ge_key.
  - by apply Qle_bool_iff.
  - by apply Qle_bool_false.
Qed.

Lemma sorted_asc_perm l : sorted_asc key l ≡ₚ l.
Proof. apply sort_by_perm. Qed.

Lemma sorted_asc_sorted l : StronglySorted (le_key key) (sorted_asc key l).
Proof.
  apply sort_by_sorted; [apply _| |]; intros y x E; unfold le_key.
  - by apply Qle_bool_iff.
  - by apply Qle_bool_false.
Qed.
End Keys.

(** *** [argsort] *)

Lemma elem_of_indexed v i x : (i, x) ∈ indexed v ↔ v !! i = Some x.
Proof.
  unfold indexed. rewrite elem_of_lookup_imap. split.
  - intros (j & y & [= -> ->] & Hy). done.
  - intros Hx. by exists i, x.
Qed.

Lemma indexed_fst v : (indexed v).*1 = seq 0 (length v).
Proof.
  unfold indexed. rewrite fmap_imap.
  rewrite <-(list_fmap_id (seq 0 (length v))), <-imap_seq_0. done.
Qed.

Lemma argsort_perm v : argsort v ≡ₚ seq 0 (length v).
Proof.
  unfold argsort.
  by rewrite sorted_asc_perm, indexed_fst.
Qed.

Lemma argsort_desc_perm v : argsort_desc v ≡ₚ seq 0 (length v).
Proof. unfold argsort_desc. by rewrite reverse_Permutation, argsort_perm. Qed.

Lemma length_argsort_desc v : length (argsort_desc v) = length v.
Proof. by rewrite argsort_desc_perm, length_seq. Qed.

Lemma NoDup_argsort_desc v : NoDup (argsort_desc v).
Proof. rewrite argsort_desc_perm. apply NoDup_seq. Qed.

Lemma elem_of_argsort_desc v i : i ∈ argsort_desc v ↔ (i < length v)%nat.
Proof. rewrite argsort_desc_perm, elem_of_seq. lia. Qed.

(** The indices come out with the larger values first: whatever is in a
    front part has a value at least as large as whatever is behind it. *)
Lemma argsort_desc_split v k i j x y :
  i ∈ take k (argsort_desc v) → j ∈ drop k (argsort_desc v) →
  v !! i = Some x → v !! j = Some y → (y <= x)%Q.
Proof.
  unfold argsort_desc, argsort.
  set (ps := reverse (sorted_asc snd (indexed v))).
  assert (StronglySorted (ge_key snd) ps) as Hs.
  { apply (@Sorted_StronglySorted _ _ (ge_key_trans snd)).
    apply (Sorted_reverse (le_key snd)).
    apply StronglySorted_Sorted, sorted_asc_sorted. }
  assert (∀ p, p ∈ ps → v !! p.1 = Some p.2) as Hps.
  { intros [i' x']. unfold ps.
    rewrite elem_of_reverse, sorted_asc_perm. apply elem_of_indexed. }
  rewrite <-fmap_reverse. fold ps. rewrite <-fmap_take, <-fmap_drop.
  intros ([i' x'] & -> & Hi)%list_elem_of_fmap ([j' y'] & -> & Hj)%list_elem_of_fmap.
  simpl. intros Hx Hy.
  rewrite <-(take_drop k ps) in Hs.
  pose proof (StronglySorted_app_1_elem_of _ _ _ _ _ Hs Hi Hj) as Hge.
  apply subseteq_take in Hi. apply subseteq_drop in Hj.
  apply Hps in Hi, Hj. simpl in *. unfold ge_key in Hge. simpl in Hge.
  congruence.
Qed.
End PyFacts.

(** * Facts about the error monad *)

Lemma bind_Ok {A B} (m : result A) (f : A → result B) (b : B) :
  m ≫= f = Ok b ↔ ∃ a, m = Ok a ∧ f a = Ok b.
Proof.
  destruct m as [a|e|]; simpl; split; try done.
  - intros Hf. by exists a.
  - by intros (a' & [= ->] & Hf).
  - by intros (a' & [=] & _).
  - by intros (a' & [=] & _).
Qed.

Lemma index_Ok {A} (l : list A) i x : index l i = Ok x ↔ l !! i = Some x.
Proof. unfold index. destruct (l !! i); naive_solver. Qed.

Lemma key_Ok {A} (o : option A) x : key o = Ok x ↔ o = Some x.
Proof. unfold key. destruct o; naive_solver. Qed.

Lemma take_ids_Ok {A} (v : list A) ids xs :
  take_ids v ids = Ok xs ↔ Forall2 (λ i x, v !! i = Some x) ids xs.
Proof.
  revert xs. induction ids as [|i ids IH]; intros xs; simpl.
  - split; [intros [= <-]; constructor|by intros ->%Forall2_nil_inv_l].
  - rewrite bind_Ok. split.
    + intros (x & Hx%index_Ok & (xs' & Hxs%IH & [= <-])%bind_Ok).
      by constructor.
    + intros (x & xs' & Hx & Hxs & ->)%Forall2_cons_inv_l.
      exists x. split; [by apply index_Ok|].
      apply bind_Ok. exists xs'. split; [by apply IH|done].
Qed.


Lemma filter_none {A} (P : A → Prop) `{!∀ x, Decision (P x)} (l : list A) :
  Forall (λ x, ¬ P x) l → filter P l = [].
Proof.
  induction 1 as [|x l Hx _ IH]; [done|].
  by rewrite filter_cons_False.
Qed.

Lemma filter_and_Forall {A} (P Q : A → Prop)
      `{!∀ x, Decision (P x), !∀ x, Decision (Q x)} (l : list A) :
  Forall P l → filter (λ x, P x ∧ Q x) l = filter Q l.
Proof.
  induction 1 as [|x l Hx _ IH]; [done|].
  destruct (decide (Q x)).
  - rewrite !filter_cons_True by done. by rewrite IH.
  - rewrite !filter_cons_False by tauto. done.
Qed.

(** * Facts about one pass of the search *)

Section PassFacts.
Context {LMState CTCState Enc Feat : Type}.
Context (imports : @Imports LMState CTCState) (self : @E2E Enc Feat).
Context (h : Enc) (lpz : option Matrix) (args : Namespace).
Context (char_list : option (list string)) (rnnlm : option (@RNNLM LMState)).

Implicit Types hyp : @Hyp LMState CTCState.
Implicit Types hyps ended remained pruned : list (@Hyp LMState CTCState).

(** ** Pruning *)

Lemma prune_length hyps i kept pruned :
  0 <= beam args →
  Z.of_nat (length kept) <= beam args →
  prune imports self h lpz args rnnlm hyps i kept = Ok pruned →
  Z.of_nat (length pruned) <= beam args.
Proof.
  intros Hbeam. revert kept.
  induction hyps as [|hyp hyps IH]; intros kept Hkept; simpl.
  - by intros [= <-].
  - intros (children & _ & Hrest)%bind_Ok.
    eapply IH; [|exact Hrest].
    by apply PyFacts.length_slice_to_le.
Qed.

(** Every pruned hypothesis is a child of a hypothesis of the beam, or was
    kept from before. *)
Lemma prune_elem_of hyps i kept pruned hyp' :
  prune imports self h lpz args rnnlm hyps i kept = Ok pruned →
  hyp' ∈ pruned →
  hyp' ∈ kept ∨
  ∃ hyp children, hyp ∈ hyps ∧
    expand imports self h lpz args rnnlm hyp i = Ok children ∧ hyp' ∈ children.
Proof.
  revert kept. induction hyps as [|hyp hyps IH]; intros kept; simpl.
  - intros [= <-]. by left.
  - intros (children & Hexp & Hrest)%bind_Ok Hin.
    destruct (IH _ Hrest Hin) as [Hk|(hyp0 & ch0 & ? & ? & ?)].
    + apply (sublist_subseteq _ _ (PyFacts.slice_to_sublist _ _)) in Hk.
      rewrite PyFacts.sorted_desc_perm in Hk.
      apply elem_of_app in Hk as [?|?]; [by left|].
      right. exists hyp, children. by rewrite elem_of_cons; auto.
    + right. exists hyp0, ch0. rewrite elem_of_cons. auto.
Qed.

(** ** Children *)

Lemma new_hyps_Forall2 hyp lm sc js children :
  new_hyps lpz hyp lm sc js = Ok children →
  Forall2 (λ j hyp', new_hyp lpz hyp lm sc j = Ok hyp') js children.
Proof.
  revert children. induction js as [|j js IH]; intros children; simpl.
  - intros [= <-]. constructor.
  - intros (x & Hx & (xs & Hxs & [= <-])%bind_Ok)%bind_Ok.
    constructor; auto.
Qed.

Lemma new_hyp_yseq hyp lm sc j hyp' :
  new_hyp lpz hyp lm sc j = Ok hyp' →
  ∃ s y, local_best_scores sc !! j = Some s ∧ local_best_ids sc !! j = Some y ∧
         score hyp' = (score hyp + s)%Q ∧ yseq hyp' = yseq hyp ++ [y].
Proof.
  unfold new_hyp.
  intros (s & Hs%index_Ok & (y & Hy%index_Ok & (c & _ & [= <-])%bind_Ok)%bind_Ok)%bind_Ok.
  by exists s, y.
Qed.

Lemma expand_yseq hyp i children hyp' :
  expand imports self h lpz args rnnlm hyp i = Ok children →
  hyp' ∈ children → ∃ y, yseq hyp' = yseq hyp ++ [y].
Proof.
  unfold expand.
  intros (lm & _ & (sc & _ & Hnew%new_hyps_Forall2)%bind_Ok)%bind_Ok Hin.
  destruct (proj1 (list_elem_of_lookup _ _) Hin) as [k Hk].
  destruct (Forall2_lookup_r _ _ _ _ _ Hnew Hk) as (j & _ & Hj).
  apply new_hyp_yseq in Hj as (s & y & _ & _ & _ & ->). by exists y.
Qed.

(** ** Ended and remaining hypotheses *)

Lemma finish_ended_from i hyp hyp' :
  finish args rnnlm i hyp = Ok hyp' → ended_from args rnnlm i hyp hyp'.
Proof.
  unfold finish, ended_from. destruct rnnlm as [lm|].
  - intros (prev & Hprev%key_Ok & [= <-])%bind_Ok. simpl in *.
    split; [done|]. by exists prev.
  - by intros [= <-].
Qed.

Lemma collect_ended_spec i hs ended0 remained0 ended' remained' :
  collect_ended self h args rnnlm i hs ended0 remained0 = Ok (ended', remained') →
  remained' = remained0 ++ filter (λ hyp, ¬ ends_with_eos self hyp) hs ∧
  ∃ fin, ended' = ended0 ++ fin ∧
    Forall2 (ended_from args rnnlm i)
      (filter (λ hyp, ends_with_eos self hyp ∧ long_enough self h args hyp) hs) fin.
Proof.
  revert ended0 remained0.
  induction hs as [|hyp hs IH]; intros ended0 remained0; simpl.
  - intros [= <- <-]. rewrite app_nil_r. split; [done|].
    exists []. by rewrite app_nil_r.
  - intros (y & Hy & Hrest)%bind_Ok.
    assert (last (yseq hyp) = Some y) as Hlast.
    { destruct (last (yseq hyp)); by simplify_eq. }
    destruct (Nat.eqb_spec y (eos self)) as [->|Hne].
    + destruct (Z.ltb_spec (minlen self h args) (Z.of_nat (length (yseq hyp))))
        as [Hlong|Hshort].
      * apply bind_Ok in Hrest as (hyp' & Hfin%finish_ended_from & Hrest).
        apply IH in Hrest as (-> & fin & -> & Hfin2).
        rewrite filter_cons_False by (intros Hn; by apply Hn).
        split; [done|].
        rewrite filter_cons_True by done.
        exists (hyp' :: fin). rewrite <-app_assoc. split; [done|].
        by constructor.
      * apply IH in Hrest as (-> & fin & -> & Hfin2).
        rewrite filter_cons_False by (intros Hn; by apply Hn).
        split; [done|].
        rewrite filter_cons_False by (unfold long_enough; intros [_ ?]; lia).
        by exists fin.
    + apply IH in Hrest as (-> & fin & -> & Hfin2).
      rewrite filter_cons_True
        by (unfold ends_with_eos; rewrite Hlast; congruence).
      rewrite <-app_assoc. split; [done|].
      rewrite filter_cons_False
        by (unfold ends_with_eos; rewrite Hlast; intros [? _]; congruence).
      by exists fin.
Qed.

Lemma force_eos_last i pruned :
  Z.of_nat i = maxlen self h args - 1 →
  force_eos self h args i pruned = map (append_eos self) pruned.
Proof. unfold force_eos. intros ->. by rewrite Z.eqb_refl. Qed.

Lemma force_eos_other i pruned :
  Z.of_nat i ≠ maxlen self h args - 1 →
  force_eos self h args i pruned = pruned.
Proof. unfold force_eos. intros H%Z.eqb_neq. by rewrite H. Qed.

Lemma append_eos_ends hyp : ends_with_eos self (append_eos self hyp).
Proof. unfold ends_with_eos. simpl. apply last_snoc. Qed.

Lemma step_inv i hyps ended ended' remained :
  step imports self h lpz args char_list rnnlm i hyps ended = Ok (ended', remained) →
  ∃ pruned,
    prune imports self h lpz args rnnlm hyps i [] = Ok pruned ∧
    collect_ended self h args rnnlm i (force_eos self h args i pruned) ended []
      = Ok (ended', remained).
Proof.
  unfold step. intros (pruned & Hp & (_ & _ & Hc)%bind_Ok)%bind_Ok.
  by exists pruned.
Qed.

Lemma step_ended i hyps ended ended' remained :
  step imports self h lpz args char_list rnnlm i hyps ended = Ok (ended', remained) →
  Forall (storable self h args) ended → Forall (storable self h args) ended'.
Proof.
  intros (pruned & _ & (_ & fin & -> & Hfin)%collect_ended_spec)%step_inv Hended.
  apply Forall_app. split; [done|].
  apply Forall_forall. intros hyp' Hin.
  destruct (proj1 (list_elem_of_lookup _ _) Hin) as [k Hk].
  destruct (Forall2_lookup_r _ _ _ _ _ Hfin Hk) as (hyp & Hhyp & [Hy _]).
  apply list_elem_of_lookup_2, list_elem_of_filter in Hhyp as [[He Hl] _].
  unfold storable, ends_with_eos, long_enough in *. by rewrite Hy.
Qed.

Lemma search_loop_ended steps hyps ended res :
  search_loop imports self h lpz args char_list rnnlm steps hyps ended = Ok res →
  Forall (storable self h args) ended → Forall (storable self h args) res.
Proof.
  revert hyps ended.
  induction steps as [|i steps IH]; intros hyps ended; simpl.
  - by intros [= <-].
  - intros ([ended' remained] & Hstep & Hrest)%bind_Ok Hended.
    pose proof (step_ended _ _ _ _ _ Hstep Hended) as Hended'.
    destruct (_ && _); [by simplify_eq|].
    destruct remained as [|hyp remained]; [by simplify_eq|].
    apply bind_Ok in Hrest as (_ & _ & Hrest). by eapply IH.
Qed.

Lemma search_ended res :
  search imports self h lpz args char_list rnnlm = Ok res → Forall (storable self h args) res.
Proof. intros H. by eapply search_loop_ended. Qed.

End PassFacts.

(** * Facts about [recognize_beam] and [recognize] *)

Section RecognizeFacts.
Context {LMState CTCState Enc Feat : Type}.
Context (imports : @Imports LMState CTCState) (self : @E2E Enc Feat).

Implicit Types hyp : @Hyp LMState CTCState.
Implicit Types σ : gmap nat Namespace.
Implicit Types rnnlm : option (@RNNLM LMState).

Lemma fmax_Qmax (a b : Q) : (Py.fmax a b == Qmax a b)%Q.
Proof.
  unfold Py.fmax. destruct (Qle_bool b a) eqn:E.
  - apply Qle_bool_iff in E. symmetry. by apply Q.max_l.
  - apply PyFacts.Qle_bool_false in E. symmetry. by apply Q.max_r.
Qed.

Lemma set_minlenratio_id args : set_minlenratio (minlenratio args) args = args.
Proof. by destruct args. Qed.

Lemma retry_store args σ :
  relax_minlenratio (fresh (dom σ)) (<[fresh (dom σ) := args]> σ)
  = <[fresh (dom σ) := relaxed args]> σ.
Proof. unfold relax_minlenratio. by rewrite alter_insert_eq. Qed.

Lemma fresh_unused σ : σ !! fresh (dom σ) = None.
Proof. apply not_elem_of_dom, is_fresh. Qed.

Lemma log_total_Ok h args hyp nbest :
  Forall (storable self h args) (hyp :: nbest) → log_total (hyp :: nbest) = Ok ().
Proof.
  intros [[He _] _]%Forall_cons. unfold log_total, ends_with_eos in *. simpl.
  destruct (yseq hyp); [done|]. done.
Qed.

Lemma recognize_beam_retry fuel h lpz r char_list rnnlm σ args :
  σ !! r = Some args →
  search imports self h lpz args char_list rnnlm = Ok [] →
  recognize_beam imports self (S fuel) h lpz r char_list rnnlm σ
  = recognize_beam imports self fuel h lpz (fresh (dom σ)) char_list rnnlm
      (<[fresh (dom σ) := relaxed args]> σ).
Proof.
  intros Hr Hs. simpl. rewrite Hr, Hs. simpl.
  by rewrite retry_store.
Qed.

Lemma recognize_beam_return fuel h lpz r char_list rnnlm σ args ended :
  σ !! r = Some args →
  search imports self h lpz args char_list rnnlm = Ok ended →
  ended ≠ [] →
  recognize_beam imports self (S fuel) h lpz r char_list rnnlm σ
  = (σ, Ok (Py.sorted_desc score ended)).
Proof.
  intros Hr Hs Hne. simpl. rewrite Hr, Hs.
  pose proof (PyFacts.sorted_desc_perm score ended) as Hperm.
  destruct (Py.sorted_desc score ended) as [|hyp nbest] eqn:E.
  { apply Permutation_nil_l in Hperm. by subst. }
  simpl. erewrite log_total_Ok; [done|].
  rewrite Hperm. by eapply search_ended.
Qed.

(** The store only grows: no object that exists is written to. *)
Lemma recognize_beam_store fuel h lpz r char_list rnnlm σ :
  σ ⊆ (recognize_beam imports self fuel h lpz r char_list rnnlm σ).1.
Proof.
  revert r σ. induction fuel as [|fuel IH]; intros r σ; simpl; [done|].
  destruct (σ !! r) as [args|]; [|done].
  destruct (search _ _ _ _ _ _ _) as [ended| |]; [|done..].
  destruct (length _ =? 0)%nat; [|done].
  simpl. rewrite retry_store.
  etrans; [|apply IH]. apply insert_subseteq, fresh_unused.
Qed.

Lemma recognize_beam_nonempty fuel h lpz r char_list rnnlm σ nbest :
  (recognize_beam imports self fuel h lpz r char_list rnnlm σ).2 = Ok nbest →
  nbest ≠ [].
Proof.
  revert r σ. induction fuel as [|fuel IH]; intros r σ; simpl; [done|].
  destruct (σ !! r) as [args|]; [|done].
  destruct (search _ _ _ _ _ _ _) as [ended| |]; [|done..].
  destruct (Py.sorted_desc score ended) as [|hyp l] eqn:E; simpl.
  - rewrite retry_store. apply IH.
  - destruct (log_total _); simpl; [|done..]. by intros [= <-].
Qed.


End RecognizeFacts.

(** * Facts about the scoring of one hypothesis *)

Section ScoreFacts.
Context {LMState CTCState Enc Feat : Type}.
Context (imports : @Imports LMState CTCState) (self : @E2E Enc Feat).
Context (h : Enc) (args : Namespace).

Implicit Types hyp : @Hyp LMState CTCState.
Implicit Types lm : option (LMState * (nat → Q)).

Lemma lookup_local_att_scores hyp c x :
  local_att_scores self h hyp !! c = Some x ↔
  (c < odim self)%nat ∧ x = decoder self h (yseq hyp) c.
Proof.
  unfold local_att_scores. rewrite list_lookup_fmap, fmap_Some. split.
  - intros (c' & [-> ?]%lookup_seq & ->). done.
  - intros [? ->]. exists c. by rewrite lookup_seq.
Qed.

Lemma length_local_att_scores hyp :
  length (local_att_scores self h hyp) = odim self.
Proof. unfold local_att_scores. by rewrite length_fmap, length_seq. Qed.

Lemma length_local_scores hyp lm :
  length (local_scores self h args hyp lm) = odim self.
Proof.
  unfold local_scores, add_lm. destruct lm as [[? ?]|].
  - rewrite length_zip_with, length_seq, length_local_att_scores. lia.
  - apply length_local_att_scores.
Qed.

Lemma ctc_candidates_sublist m hyp lm :
  ctc_candidates self h args m hyp lm
    `sublist_of` Py.argsort_desc (local_scores self h args hyp lm).
Proof. apply PyFacts.slice_to_sublist. Qed.

Lemma NoDup_ctc_candidates m hyp lm : NoDup (ctc_candidates self h args m hyp lm).
Proof.
  eapply sublist_NoDup; [|apply ctc_candidates_sublist].
  apply PyFacts.NoDup_argsort_desc.
Qed.

Lemma ctc_candidates_lt m hyp lm c :
  c ∈ ctc_candidates self h args m hyp lm → (c < odim self)%nat.
Proof.
  intros Hc%(sublist_subseteq _ _ (ctc_candidates_sublist m hyp lm)).
  apply PyFacts.elem_of_argsort_desc in Hc. by rewrite length_local_scores in Hc.
Qed.

Lemma ctc_beam_range m :
  0 <= beam_size args → 0 <= ctc_beam args m <= Z.of_nat (ncols m).
Proof.
  intros Hb. unfold ctc_beam. destruct (negb _); [|lia].
  assert (0 <= Py.int (inject_Z (beam args) * CTC_SCORING_RATIO)); [|lia].
  rewrite PyFacts.int_floor.
  - change 0 with (Qfloor 0). apply Qfloor_resp_le.
    apply Qmult_le_0_compat; [|done].
    change 0%Q with (inject_Z 0). by rewrite <-Zle_Qle.
  - apply Qmult_le_0_compat; [|done].
    change 0%Q with (inject_Z 0). by rewrite <-Zle_Qle.
Qed.

Lemma length_ctc_candidates m hyp lm :
  0 <= beam_size args → ncols m = odim self →
  length (ctc_candidates self h args m hyp lm) = Z.to_nat (ctc_beam args m).
Proof.
  intros Hb Hm. pose proof (ctc_beam_range m Hb) as Hr.
  unfold ctc_candidates. rewrite PyFacts.slice_to_take by lia.
  rewrite length_take, PyFacts.length_argsort_desc, length_local_scores. lia.
Qed.

(** Without a language model the candidates are the best tokens by
    attention score. *)
Lemma ctc_candidates_top m hyp c v :
  0 <= beam_size args →
  c ∈ ctc_candidates self h args m hyp None →
  (v < odim self)%nat → v ∉ ctc_candidates self h args m hyp None →
  (decoder self h (yseq hyp) v <= decoder self h (yseq hyp) c)%Q.
Proof.
  intros Hb Hc Hv Hnv. pose proof (ctc_candidates_lt _ _ _ _ Hc) as Hc'.
  pose proof (ctc_beam_range m Hb) as Hr.
  unfold ctc_candidates in *. rewrite PyFacts.slice_to_take in * by lia.
  change (local_scores self h args hyp None) with (local_att_scores self h hyp) in *.
  eapply (PyFacts.argsort_desc_split _ _ c v); [exact Hc| |by apply lookup_local_att_scores..].
  assert (v ∈ Py.argsort_desc (local_att_scores self h hyp)) as Hin.
  { apply PyFacts.elem_of_argsort_desc. by rewrite length_local_att_scores. }
  rewrite <-(take_drop (Z.to_nat (ctc_beam args m))) in Hin.
  apply elem_of_app in Hin as [?|?]; done.
Qed.

Lemma take_ids_fmap {A} (f : nat → A) (v : list A) ids xs :
  (∀ i x, v !! i = Some x → x = f i) →
  take_ids v ids = Ok xs → xs = f <$> ids.
Proof.
  intros Hv H%take_ids_Ok. induction H as [|i x ids xs Hx _ IH]; [done|].
  simpl. f_equal; [by apply Hv|done].
Qed.

Lemma joint_scores_combined scorer hyp lm st prev ids :
  add_lm args lm ids
    (zip_with (joint_score args prev) (decoder self h (yseq hyp) <$> ids)
       ((λ c, prefix_score scorer (yseq hyp) c st) <$> ids).*1)
  = combined_score self h args scorer hyp lm st prev <$> ids.
Proof.
  unfold add_lm.
  destruct lm as [[? ?]|]; (induction ids as [|c ids IH]; [done|]);
    rewrite !fmap_cons; simpl; f_equal; first [exact IH|done].
Qed.

(** What [score_hyp] returns when the CTC posteriors are given. *)
Lemma score_hyp_ctc m hyp lm sc :
  score_hyp imports self h (Some m) args hyp lm = Ok sc →
  ∃ st prev,
    ctc_state_prev hyp = Some st ∧ ctc_score_prev hyp = Some prev ∧
    let scorer := CTCPrefixScore imports m 0%nat (eos self) in
    let cands := ctc_candidates self h args m hyp lm in
    let joint := combined_score self h args scorer hyp lm st prev <$> cands in
    ctc_scores sc = (λ c, (prefix_score scorer (yseq hyp) c st).1) <$> cands ∧
    ctc_states sc = (λ c, (prefix_score scorer (yseq hyp) c st).2) <$> cands ∧
    joint_best_ids sc = Py.slice_to (beam args) (Py.argsort_desc joint) ∧
    Forall2 (λ j c, cands !! j = Some c) (joint_best_ids sc) (local_best_ids sc) ∧
    Forall2 (λ j s, joint !! j = Some s) (joint_best_ids sc) (local_best_scores sc).
Proof.
  unfold score_hyp.
  intros (st & Hst%key_Ok & (att & Hatt & (prev & Hprev%key_Ok & Hrest)%bind_Ok)%bind_Ok)%bind_Ok.
  apply (take_ids_fmap (decoder self h (yseq hyp))) in Hatt as ->;
    [|by intros i x [_ ->]%lookup_local_att_scores].
  rewrite joint_scores_combined in Hrest.
  apply bind_Ok in Hrest as (best_scores & Hbs%take_ids_Ok & Hrest).
  apply bind_Ok in Hrest as (best_ids & Hbi%take_ids_Ok & [= <-]).
  exists st, prev. simpl. rewrite <-!list_fmap_compose. done.
Qed.

Section Kept.
Context (m : Matrix) (hyp : @Hyp LMState CTCState).
Context (lm : option (LMState * (nat → Q))) (sc : @Scored CTCState).
Context (st : CTCState) (prev : Q).
Context (Hbeam : 0 <= beam_size args).

Let scorer := CTCPrefixScore imports m 0%nat (eos self).
Let cands := ctc_candidates self h args m hyp lm.
Let combined := combined_score self h args scorer hyp lm st prev.

Context (Hjids : joint_best_ids sc
                 = Py.slice_to (beam args) (Py.argsort_desc (combined <$> cands))).
Context (Hids : Forall2 (λ j c, cands !! j = Some c)
                  (joint_best_ids sc) (local_best_ids sc)).
Context (Hscores : Forall2 (λ j s, (combined <$> cands) !! j = Some s)
                     (joint_best_ids sc) (local_best_scores sc)).

Lemma kept_scores :
  Forall2 (λ c s, s = combined c) (local_best_ids sc) (local_best_scores sc).
Proof using Hids Hscores.
  apply Forall2_same_length_lookup. split.
  { rewrite <-(Forall2_length _ _ _ Hids). by eapply Forall2_length. }
  intros k c s Hc Hs.
  destruct (Forall2_lookup_r _ _ _ _ _ Hids Hc) as (j & Hj & Hjc).
  destruct (Forall2_lookup_l _ _ _ _ _ Hscores Hj) as (s' & Hs' & Hjs).
  rewrite list_lookup_fmap, Hjc in Hjs. simpl in Hjs. congruence.
Qed.

Lemma kept_subseteq : local_best_ids sc ⊆ cands.
Proof using Hids.
  intros c [k Hk]%list_elem_of_lookup.
  destruct (Forall2_lookup_r _ _ _ _ _ Hids Hk) as (j & _ & Hjc).
  by eapply list_elem_of_lookup_2.
Qed.

Lemma NoDup_joint_best_ids : NoDup (joint_best_ids sc).
Proof using Hjids.
  rewrite Hjids. eapply sublist_NoDup; [|apply PyFacts.slice_to_sublist].
  apply PyFacts.NoDup_argsort_desc.
Qed.

Lemma NoDup_kept : NoDup (local_best_ids sc).
Proof using Hjids Hids.
  apply NoDup_alt. intros k1 k2 c H1 H2.
  destruct (Forall2_lookup_r _ _ _ _ _ Hids H1) as (j1 & Hj1 & Hc1).
  destruct (Forall2_lookup_r _ _ _ _ _ Hids H2) as (j2 & Hj2 & Hc2).
  pose proof (NoDup_ctc_candidates m hyp lm) as Hnd.
  assert (j1 = j2) as <- by (by eapply NoDup_lookup).
  eapply NoDup_lookup; [apply NoDup_joint_best_ids|done..].
Qed.

Lemma length_kept :
  length (local_best_ids sc) = (Z.to_nat (beam args) `min` length cands)%nat.
Proof using Hjids Hids Hbeam.
  rewrite <-(Forall2_length _ _ _ Hids), Hjids.
  rewrite PyFacts.slice_to_take by done.
  by rewrite length_take, PyFacts.length_argsort_desc, length_fmap.
Qed.

(** No candidate that is left out has a better combined score than one
    that is kept. *)
Lemma kept_top c c' :
  c ∈ local_best_ids sc → c' ∈ cands → c' ∉ local_best_ids sc →
  (combined c' <= combined c)%Q.
Proof using Hjids Hids Hbeam.
  intros [k Hk]%list_elem_of_lookup [j' Hj']%list_elem_of_lookup Hout.
  destruct (Forall2_lookup_r _ _ _ _ _ Hids Hk) as (j & Hj & Hjc).
  rewrite Hjids, PyFacts.slice_to_take in Hj, Hids by done.
  apply (PyFacts.argsort_desc_split (combined <$> cands)
           (Z.to_nat (beam args)) j j').
  - by eapply list_elem_of_lookup_2.
  - assert (j' ∈ Py.argsort_desc (combined <$> cands)) as Hin.
    { apply PyFacts.elem_of_argsort_desc. rewrite length_fmap.
      by eapply lookup_lt_Some. }
    rewrite <-(take_drop (Z.to_nat (beam args))) in Hin.
    apply elem_of_app in Hin as [[k' Hk']%list_elem_of_lookup|?]; [|done].
    destruct (Forall2_lookup_l _ _ _ _ _ Hids Hk') as (c'' & Hc'' & Hjc'').
    destruct Hout. apply list_elem_of_lookup. exists k'. congruence.
  - by rewrite list_lookup_fmap, Hjc.
  - by rewrite list_lookup_fmap, Hj'.
Qed.

End Kept.

(** The children of a hypothesis are built from the kept candidates, one
    child for each, in their order. *)
Lemma new_hyps_kept lpz hyp lm sc children (f : nat → Q) :
  new_hyps lpz hyp lm sc (Py.range (beam args)) = Ok children →
  (length (local_best_ids sc) <= Z.to_nat (beam args))%nat →
  Forall2 (λ c s, s = f c) (local_best_ids sc) (local_best_scores sc) →
  Forall2 (λ c hyp', yseq hyp' = yseq hyp ++ [c] ∧ score hyp' = (score hyp + f c)%Q)
    (local_best_ids sc) children.
Proof.
  intros Hnew%new_hyps_Forall2 Hlen Hf.
  assert (length children = Z.to_nat (beam args)) as Hch.
  { rewrite <-(Forall2_length _ _ _ Hnew). apply length_seq. }
  assert (∀ k hyp', children !! k = Some hyp' →
    ∃ c, local_best_ids sc !! k = Some c ∧
         yseq hyp' = yseq hyp ++ [c] ∧ score hyp' = (score hyp + f c)%Q) as Hk.
  { intros k hyp' Hk.
    destruct (Forall2_lookup_r _ _ _ _ _ Hnew Hk) as (j & [-> _]%lookup_seq & Hj).
    apply new_hyp_yseq in Hj as (s & y & Hs & Hy & ? & ?). exists y.
    destruct (Forall2_lookup_l _ _ _ _ _ Hf Hy) as (s' & Hs' & ->).
    simpl in *. by simplify_eq. }
  apply Forall2_same_length_lookup. split.
  { apply Nat.le_antisymm; [lia|]. rewrite Hch.
    destruct (Z.to_nat (beam args)) as [|n] eqn:E; [lia|].
    destruct (lookup_lt_is_Some_2 children n) as [hyp' Hn]; [lia|].
    apply Hk in Hn as (c & Hc%lookup_lt_Some & _). lia. }
  intros k c hyp' Hc Hh.
  apply Hk in Hh as (c' & ? & ? & ?). by simplify_eq.
Qed.

End ScoreFacts.

(** * The properties of the specification *)

Section Claims.
Context {LMState CTCState Enc Feat : Type}.
Context (imports : @Imports LMState CTCState) (self : @E2E Enc Feat).
Context (h : Enc) (lpz : option Matrix) (args : Namespace).
Context (char_list : option (list string)) (rnnlm : option (@RNNLM LMState)).

Implicit Types hyp : @Hyp LMState CTCState.
Implicit Types hyps ended remained pruned : list (@Hyp LMState CTCState).


(** C7. At every decoding step the beam that comes out of pruning holds at
    most [beam_size] hypotheses, and so does what remains of it for the
    next step. [beam_size] is not negative, as the configuration requires. *)
Theorem beam_size_invariant i hyps ended ended' remained :
  0 <= beam_size args →
  step imports self h lpz args char_list rnnlm i hyps ended = Ok (ended', remained) →
  ∃ pruned,
    prune imports self h lpz args rnnlm hyps i [] = Ok pruned ∧
    Z.of_nat (length pruned) <= beam_size args ∧
    Z.of_nat (length remained) <= beam_size args.
Proof.
  intros Hbeam (pruned & Hp & Hc)%step_inv. exists pruned.
  assert (Z.of_nat (length pruned) <= beam_size args) as Hlen.
  { eapply prune_length; [done| |exact Hp]. simpl. done. }
  split_and!; [done..|].
  apply collect_ended_spec in Hc as (-> & _). simpl.
  etrans; [|exact Hlen]. apply Nat2Z.inj_le.
  etrans; [apply length_filter|].
  unfold force_eos. destruct (_ =? _); [by rewrite length_map|done].
Qed.

(** C3. At the step [i = maxlen - 1] EOS is appended to the tokens of every
    hypothesis that survived pruning, whatever its score; after that every
    one of them ends in EOS, none remains for a further step, and the loop
    is over. *)
Theorem force_eos_invariant i steps hyps ended ended' remained :
  Z.of_nat i = maxlen self h args - 1 →
  step imports self h lpz args char_list rnnlm i hyps ended = Ok (ended', remained) →
  ∃ pruned,
    prune imports self h lpz args rnnlm hyps i [] = Ok pruned ∧
    Forall2 (λ hyp hyp', yseq hyp' = yseq hyp ++ [eos self] ∧ score hyp' = score hyp)
      pruned (force_eos self h args i pruned) ∧
    Forall (ends_with_eos self) (force_eos self h args i pruned) ∧
    remained = [] ∧
    search_loop imports self h lpz args char_list rnnlm (i :: steps) hyps ended
      = Ok ended'.
Proof.
  intros Hi Hstep. destruct (step_inv _ _ _ _ _ _ _ _ _ _ _ _ Hstep) as (pruned & Hp & Hc).
  exists pruned. rewrite force_eos_last in * by done.
  assert (Forall (ends_with_eos self) (map (append_eos self) pruned)) as Hall.
  { apply Forall_fmap, Forall_true. intros hyp. apply append_eos_ends. }
  assert (remained = []) as ->.
  { apply collect_ended_spec in Hc as (-> & _). simpl.
    apply filter_none.
    eapply Forall_impl; [exact Hall|]. intros hyp Hhyp Hn. by apply Hn. }
  split_and!; [done| |done..|].
  - apply Forall2_fmap_r, Forall_Forall2_diag, Forall_true. done.
  - simpl. rewrite Hstep. simpl. by destruct (_ && _).
Qed.

(** C2. At every step [i] the hypotheses that end in EOS after pruning (and
    after the forced EOS of the last step) are taken out of the beam: those
    whose token sequence, SOS included, is longer than [minlen] go to the
    ended list, with [(i + 1) * penalty] and, with a language model,
    [lm_weight] times its final score added to their score; the others are
    dropped, they are neither ended nor kept. In particular, with
    [minlenratio = 0.5] and 10 frames, no hypothesis of fewer than 5 tokens is
    in the ended list of the pass: what is there has more than 5. *)
Theorem completion_filtering :
  (∀ i hyps ended ended' remained,
     step imports self h lpz args char_list rnnlm i hyps ended = Ok (ended', remained) →
     ∃ pruned fin,
       prune imports self h lpz args rnnlm hyps i [] = Ok pruned ∧
       let survivors := force_eos self h args i pruned in
       remained = filter (λ hyp, ¬ ends_with_eos self hyp) survivors ∧
       ended' = ended ++ fin ∧
       Forall2 (ended_from args rnnlm i)
         (filter (λ hyp, ends_with_eos self hyp ∧ long_enough self h args hyp)
            survivors) fin) ∧
  (∀ ended,
     (minlenratio args == 1 # 2)%Q → shape0 self h = 10%nat →
     search imports self h lpz args char_list rnnlm = Ok ended →
     ∀ hyp, hyp ∈ ended →
       ¬ (length (yseq hyp) < 5)%nat ∧ (5 < length (yseq hyp))%nat).
Proof.
  split.
  - intros i hyps ended ended' remained (pruned & Hp & Hc)%step_inv.
    apply collect_ended_spec in Hc as (-> & fin & -> & Hfin).
    by exists pruned, fin.
  - intros ended Hratio Hframes Hs hyp Hin.
    apply search_ended in Hs. rewrite Forall_forall in Hs.
    destruct (Hs _ Hin) as [_ Hlong]. unfold long_enough, minlen in Hlong.
    rewrite Hframes, PyFacts.int_floor in Hlong.
    + rewrite Hratio in Hlong. vm_compute Qfloor in Hlong. lia.
    + rewrite Hratio. done.
Qed.

(** C4. When the loop over the steps is over, the ended list is sorted by
    score, best first, and returned as the N-best result; when it is empty
    the search is run again from the start, on a copy of the arguments whose
    [minlenratio] is lowered by 0.1 and not below 0, and the outcome of that
    run is the outcome of the call: no error is raised for the empty list. *)
Theorem final_sort_or_retry fuel (r : nat) (σ : gmap nat Namespace) ended :
  σ !! r = Some args →
  search imports self h lpz args char_list rnnlm = Ok ended →
  (ended ≠ [] →
     ∃ nbest,
       recognize_beam imports self (S fuel) h lpz r char_list rnnlm σ
       = (σ, Ok nbest) ∧
       nbest ≡ₚ ended ∧
       StronglySorted (λ hyp1 hyp2, (score hyp2 <= score hyp1)%Q) nbest) ∧
  (ended = [] →
     ∃ (r' : nat) args',
       σ !! r' = None ∧
       args' = set_minlenratio (minlenratio args') args ∧
       (minlenratio args' == Qmax 0 (minlenratio args - (1 # 10)))%Q ∧
       recognize_beam imports self (S fuel) h lpz r char_list rnnlm σ
       = recognize_beam imports self fuel h lpz r' char_list rnnlm
           (<[r' := args']> σ)).
Proof.
  intros Hr Hs. split.
  - intros Hne. exists (Py.sorted_desc score ended). split_and!.
    + by eapply recognize_beam_return.
    + apply PyFacts.sorted_desc_perm.
    + apply PyFacts.sorted_desc_sorted.
  - intros ->. exists (fresh (dom σ)), (relaxed args). split_and!.
    + apply fresh_unused.
    + done.
    + apply fmax_Qmax.
    + by apply recognize_beam_retry.
Qed.

(** C5, as the code has it. When the beam becomes empty before any
    hypothesis has ended, the loop stops with an empty ended list; the call
    does not return that list but runs the search again with [minlenratio]
    lowered by 0.1, not below 0. No call returns an empty N-best list. *)
Theorem empty_beam_retry :
  (∀ i steps hyps,
     step imports self h lpz args char_list rnnlm i hyps [] = Ok ([], []) →
     search_loop imports self h lpz args char_list rnnlm (i :: steps) hyps []
     = Ok []) ∧
  (∀ fuel (r : nat) (σ : gmap nat Namespace),
     σ !! r = Some args →
     search imports self h lpz args char_list rnnlm = Ok [] →
     recognize_beam imports self (S fuel) h lpz r char_list rnnlm σ
     = recognize_beam imports self fuel h lpz (fresh (dom σ)) char_list rnnlm
         (<[fresh (dom σ) := relaxed args]> σ)) ∧
  (∀ fuel (r : nat) (σ : gmap nat Namespace) nbest,
     (recognize_beam imports self fuel h lpz r char_list rnnlm σ).2 = Ok nbest →
     nbest ≠ []).
Proof.
  split_and!.
  - intros i steps hyps Hstep. simpl. rewrite Hstep. simpl.
    by destruct (_ && _).
  - intros fuel r σ Hr Hs. by apply recognize_beam_retry.
  - intros fuel r σ nbest. apply recognize_beam_nonempty.
Qed.

(** C10. Neither [recognize_beam] nor [recognize] writes to the caller's
    [recog_args]: after a call, retries included, the object is what it was,
    [minlenratio] too, and so is every other object of the store; the
    lowered [minlenratio] is written to a copy. *)
Theorem recog_args_not_mutated fuel (x_block : Feat) (r : nat)
        (σ : gmap nat Namespace) :
  let σ1 := (recognize_beam imports self fuel h lpz r char_list rnnlm σ).1 in
  let σ2 := (recognize imports self fuel x_block r char_list rnnlm σ).1 in
  (σ1 !! r = σ !! r ∧ minlenratio <$> σ1 !! r = minlenratio <$> σ !! r ∧ σ ⊆ σ1) ∧
  (σ2 !! r = σ !! r ∧ minlenratio <$> σ2 !! r = minlenratio <$> σ !! r ∧ σ ⊆ σ2).
Proof.
  assert (∀ σ' : gmap nat Namespace,
    σ ⊆ σ' → (σ !! r = None → σ' = σ) →
    σ' !! r = σ !! r ∧ minlenratio <$> σ' !! r = minlenratio <$> σ !! r ∧ σ ⊆ σ')
    as Hframe.
  { intros σ' Hsub Hnone.
    assert (σ' !! r = σ !! r) as Heq.
    { destruct (σ !! r) as [a|] eqn:E.
      - by eapply lookup_weaken.
      - by rewrite Hnone. }
    by rewrite Heq. }
  split.
  - apply Hframe; [apply recognize_beam_store|].
    intros Hnone. destruct fuel; simpl; [done|]. by destruct (σ !! r).
  - unfold recognize. destruct (σ !! r) as [a|] eqn:E.
    + apply Hframe; [apply recognize_beam_store|]. by intros [=].
    + simpl. by rewrite E.
Qed.


(** C9. At the last step [i = maxlen - 1] a surviving hypothesis whose new
    token is EOS gets the forced EOS all the same: its tokens then end in two
    EOS, it is the length with both that is compared with [minlen], and with
    both it is stored in the ended list. Such a sequence can be returned:
    the decoder that ends at once, on one frame, returns SOS, EOS, EOS. *)
Theorem double_eos_at_maxlen :
  (∀ i hyps ended ended' remained,
     Z.of_nat i = maxlen self h args - 1 →
     step imports self h lpz args char_list rnnlm i hyps ended = Ok (ended', remained) →
     ∃ pruned fin,
       prune imports self h lpz args rnnlm hyps i [] = Ok pruned ∧
       ended' = ended ++ fin ∧
       Forall2 (ended_from args rnnlm i)
         (filter (long_enough self h args) (append_eos self <$> pruned)) fin ∧
       ∀ hyp, hyp ∈ pruned → ends_with_eos self hyp →
         ∃ ys, yseq hyp = ys ++ [eos self] ∧
               yseq (append_eos self hyp) = ys ++ [eos self; eos self] ∧
               (long_enough self h args (append_eos self hyp) ↔
                minlen self h args < Z.of_nat (length ys) + 2)) ∧
  (∃ (result : list (@Hyp unit unit)) (best : @Hyp unit unit) ys,
     (recognize_beam Toy.imports (Toy.model Toy.eager) 1 1%nat None 0%nat
        None None {[0%nat := Toy.recog_args 1 0 0]}).2 = Ok result ∧
     best ∈ result ∧ yseq best = ys ++ [Toy.EOS; Toy.EOS]).
Proof.
  split.
  - intros i hyps ended ended' remained Hi (pruned & Hp & Hc)%step_inv.
    apply collect_ended_spec in Hc as (_ & fin & -> & Hfin).
    rewrite force_eos_last in Hfin by done.
    rewrite filter_and_Forall in Hfin
      by (apply Forall_fmap, Forall_true; intros hyp; apply append_eos_ends).
    exists pruned, fin. split_and!; [done..|].
    intros hyp _ [ys Hys]%last_Some. exists ys. split_and!; [done|..].
    + simpl. rewrite Hys, <-app_assoc. done.
    + unfold long_enough. simpl. rewrite Hys, !length_app. simpl. lia.
  - eexists _, _, [Toy.EOS]. split_and!.
    + vm_compute. reflexivity.
    + apply list_elem_of_here.
    + reflexivity.
Qed.

(** C1, as the code has it. With CTC posteriors, at every step and for
    every hypothesis that is expanded: the candidates given to the CTC
    scorer are [min(vocab_size, floor(beam_size * 1.5))] tokens when
    [ctc_weight] is not 1 and the whole vocabulary when it is 1; without a
    language model they are the best tokens by attention score; the CTC
    scorer is asked for these tokens and no others; the combined score of a
    candidate is [(1 - ctc_weight) * attention + ctc_weight * (ctc - previous)],
    plus [lm_weight * lm] with a language model; and the [beam_size] best
    candidates by combined score are the ones kept as children. The
    posteriors have one column for each output unit and [beam_size] is not
    negative. *)
Theorem ctc_pruning m hyp i children :
  ncols m = odim self → 0 <= beam_size args →
  expand imports self h (Some m) args rnnlm hyp i = Ok children →
  ∃ lm sc st prev,
    lm_predict rnnlm hyp i = Ok lm ∧
    score_hyp imports self h (Some m) args hyp lm = Ok sc ∧
    ctc_state_prev hyp = Some st ∧ ctc_score_prev hyp = Some prev ∧
    let scorer := CTCPrefixScore imports m 0%nat (eos self) in
    let cands := ctc_candidates self h args m hyp lm in
    let combined := combined_score self h args scorer hyp lm st prev in
    (¬ (ctc_weight args == 1)%Q →
       Z.of_nat (length cands)
       = Z.min (Z.of_nat (odim self)) (Qfloor (inject_Z (beam_size args) * (3 # 2)))) ∧
    ((ctc_weight args == 1)%Q → length cands = odim self) ∧
    NoDup cands ∧
    (∀ c, c ∈ cands → (c < odim self)%nat) ∧
    (rnnlm = None →
       ∀ c v, c ∈ cands → (v < odim self)%nat → v ∉ cands →
         (decoder self h (yseq hyp) v <= decoder self h (yseq hyp) c)%Q) ∧
    ctc_scores sc = (λ c, (prefix_score scorer (yseq hyp) c st).1) <$> cands ∧
    local_best_ids sc ⊆ cands ∧
    NoDup (local_best_ids sc) ∧
    length (local_best_ids sc) = (Z.to_nat (beam_size args) `min` length cands)%nat ∧
    (∀ c c', c ∈ local_best_ids sc → c' ∈ cands → c' ∉ local_best_ids sc →
       (combined c' <= combined c)%Q) ∧
    Forall2 (λ c hyp', yseq hyp' = yseq hyp ++ [c] ∧
                       score hyp' = (score hyp + combined c)%Q)
      (local_best_ids sc) children.
Proof.
  intros Hm Hbeam. unfold expand.
  intros (lm & Hlm & (sc & Hsc & Hnew)%bind_Ok)%bind_Ok.
  destruct (score_hyp_ctc _ _ _ _ _ _ _ _ Hsc)
    as (st & prev & Hst & Hprev & Hcs & _ & Hjids & Hids & Hscores).
  exists lm, sc, st, prev. split_and!; try done.
  - intros Hw. rewrite length_ctc_candidates by done.
    pose proof (ctc_beam_range args m Hbeam) as Hr.
    rewrite Z2Nat.id by lia. unfold ctc_beam.
    destruct (Qeq_bool (ctc_weight args) 1) eqn:E.
    { by apply Qeq_bool_iff in E. }
    simpl. rewrite Hm, PyFacts.int_floor; [done|].
    apply Qmult_le_0_compat; [|done].
    change 0%Q with (inject_Z 0). by rewrite <-Zle_Qle.
  - intros Hw%Qeq_bool_iff. rewrite length_ctc_candidates by done.
    unfold ctc_beam. rewrite Hw. simpl. lia.
  - apply NoDup_ctc_candidates.
  - apply ctc_candidates_lt.
  - intros -> c v. simpl in Hlm. injection Hlm as <-.
    by apply ctc_candidates_top.
  - by eapply kept_subseteq.
  - by eapply NoDup_kept.
  - by eapply length_kept.
  - by eapply kept_top.
  - eapply new_hyps_kept; [exact Hnew| |by eapply kept_scores].
    erewrite length_kept by done. apply Nat.le_min_l.
Qed.

End Claims.

(** * The properties at work on the small models *)


Lemma beam_size_invariant_witness :
  ∃ ended' remained pruned,
    step Toy.imports (Toy.model Toy.speller) 4%nat None (Toy.recog_args 3 0 (1 # 2))
      None None 1 [Toy.hyp 0 [Toy.EOS; Toy.A]] [] = Ok (ended', remained) ∧
    prune Toy.imports (Toy.model Toy.speller) 4%nat None (Toy.recog_args 3 0 (1 # 2))
      None [Toy.hyp 0 [Toy.EOS; Toy.A]] 1 [] = Ok pruned ∧
    Z.of_nat (length pruned) <= 3 ∧ Z.of_nat (length remained) <= 3.
Proof.
  eexists _, _.
  assert (step Toy.imports (Toy.model Toy.speller) 4%nat None
            (Toy.recog_args 3 0 (1 # 2)) None None 1
            [Toy.hyp 0 [Toy.EOS; Toy.A]] [] = Ok (_, _)) as Hstep
    by (vm_compute; reflexivity).
  assert (0 <= beam_size (Toy.recog_args 3 0 (1 # 2))) as Hbeam
    by (simpl; lia).
  destruct (beam_size_invariant _ _ _ _ _ _ _ _ _ _ _ _ Hbeam Hstep)
    as (pruned & Hp & Hpruned & Hremained).
  exists pruned. split_and!; [exact Hstep|exact Hp|exact Hpruned|exact Hremained].
Defined.

Lemma force_eos_invariant_witness :
  let self := Toy.model Toy.speller in
  let args := Toy.recog_args 3 0 (1 # 2) in
  let hyps := [Toy.hyp 0 [Toy.EOS; Toy.A; Toy.A; Toy.A]] in
  Z.of_nat 3 = maxlen self 4%nat args - 1 ∧
  ∃ ended' remained pruned,
    step Toy.imports self 4%nat None args None None 3 hyps [] = Ok (ended', remained) ∧
    prune Toy.imports self 4%nat None args None hyps 3 [] = Ok pruned ∧
    Forall2 (λ hyp hyp', yseq hyp' = yseq hyp ++ [eos self] ∧ score hyp' = score hyp)
      pruned (force_eos self 4%nat args 3 pruned) ∧
    Forall (ends_with_eos self) (force_eos self 4%nat args 3 pruned) ∧
    remained = [] ∧
    search_loop Toy.imports self 4%nat None args None None [3%nat] hyps []
    = Ok ended'.
Proof.
  intros self args hyps.
  assert (Z.of_nat 3 = maxlen self 4%nat args - 1) as Hi by reflexivity.
  split; [exact Hi|]. eexists _, _.
  assert (step Toy.imports self 4%nat None args None None 3 hyps [] = Ok (_, _))
    as Hstep by (vm_compute; reflexivity).
  destruct (force_eos_invariant Toy.imports self 4%nat None args None None
              3 [] hyps [] _ _ Hi Hstep) as (pruned & Hp & Happ & Hends & Hrem & Hloop).
  exists pruned. split_and!; [exact Hstep|exact Hp|exact Happ|exact Hends| |exact Hloop].
  reflexivity.
Defined.

Lemma completion_filtering_witness :
  let self := Toy.model Toy.speller in
  let args := Toy.recog_args 3 0 (1 # 2) in
  (∃ ended' remained pruned fin,
     step Toy.imports self 10%nat None args None None 0
       [initial_hyp Toy.imports self None None] [] = Ok (ended', remained) ∧
     prune Toy.imports self 10%nat None args None
       [initial_hyp Toy.imports self None None] 0 [] = Ok pruned ∧
     remained = filter (λ hyp, ¬ ends_with_eos self hyp)
                  (force_eos self 10%nat args 0 pruned) ∧
     ended' = [] ++ fin ∧
     Forall2 (ended_from args None 0)
       (filter (λ hyp, ends_with_eos self hyp ∧ long_enough self 10%nat args hyp)
          (force_eos self 10%nat args 0 pruned)) fin ∧
     length pruned = 3%nat ∧ length remained = 2%nat ∧ fin = []) ∧
  (∃ ended,
     search Toy.imports self 10%nat None args None None = Ok ended ∧
     length ended = 9%nat ∧
     ∀ hyp, hyp ∈ ended →
       ¬ (length (yseq hyp) < 5)%nat ∧ (5 < length (yseq hyp))%nat).
Proof.
  intros self args.
  pose proof (completion_filtering Toy.imports self 10%nat None args None None)
    as [Hstep Hsearch].
  split.
  - eexists _, _.
    assert (step Toy.imports self 10%nat None args None None 0
              [initial_hyp Toy.imports self None None] [] = Ok (_, _)) as H0
      by (vm_compute; reflexivity).
    destruct (Hstep _ _ _ _ _ H0) as (pruned & fin & Hp & Hrem & Hend & Hfin).
    exists pruned, fin. split_and!; [exact H0|exact Hp|exact Hrem|exact Hend|exact Hfin|..].
    + vm_compute in Hp. injection Hp as <-. reflexivity.
    + reflexivity.
    + symmetry. exact Hend.
  - eexists.
    assert (search Toy.imports self 10%nat None args None None = Ok _) as H0
      by (vm_compute; reflexivity).
    split_and!; [exact H0|reflexivity|].
    apply (Hsearch _ ltac:(reflexivity) ltac:(reflexivity) H0).
Defined.

Lemma final_sort_or_retry_witness :
  let self := Toy.model Toy.speller in
  let eager := Toy.model Toy.eager in
  let args := Toy.recog_args 3 0 (1 # 2) in
  let greedy := Toy.recog_args 1 0 (1 # 2) in
  (∃ ended nbest,
     search Toy.imports self 10%nat None args None None = Ok ended ∧
     ended ≠ [] ∧
     recognize_beam Toy.imports self 1 10%nat None 0%nat None None {[0%nat := args]}
     = ({[0%nat := args]}, Ok nbest) ∧
     nbest ≡ₚ ended ∧
     StronglySorted (λ hyp1 hyp2, (score hyp2 <= score hyp1)%Q) nbest) ∧
  (search Toy.imports eager 4%nat None greedy None None = Ok [] ∧
   ∃ (r' : nat) args',
     ({[0%nat := greedy]} : gmap nat Namespace) !! r' = None ∧
     args' = set_minlenratio (minlenratio args') greedy ∧
     (minlenratio args' == Qmax 0 (minlenratio greedy - (1 # 10)))%Q ∧
     recognize_beam Toy.imports eager 2 4%nat None 0%nat None None {[0%nat := greedy]}
     = recognize_beam Toy.imports eager 1 4%nat None r' None None
         (<[r' := args']> {[0%nat := greedy]})).
Proof.
  intros self eager args greedy.
  split.
  - assert (({[0%nat := args]} : gmap nat Namespace) !! 0%nat = Some args) as Hr
      by reflexivity.
    eexists.
    assert (search Toy.imports self 10%nat None args None None = Ok _) as Hs
      by (vm_compute; reflexivity).
    destruct (final_sort_or_retry Toy.imports self 10%nat None args None None
                0 0%nat {[0%nat := args]} _ Hr Hs) as [Hret _].
    destruct Hret as (nbest & Hcall & Hperm & Hsorted); [discriminate|].
    exists nbest. split_and!; [exact Hs|discriminate|exact Hcall|exact Hperm|exact Hsorted].
  - assert (({[0%nat := greedy]} : gmap nat Namespace) !! 0%nat = Some greedy) as Hr
      by reflexivity.
    assert (search Toy.imports eager 4%nat None greedy None None = Ok []) as Hs
      by (vm_compute; reflexivity).
    split; [exact Hs|].
    destruct (final_sort_or_retry Toy.imports eager 4%nat None greedy None None
                1 0%nat {[0%nat := greedy]} _ Hr Hs) as [_ Hretry].
    exact (Hretry eq_refl).
Defined.

Lemma empty_beam_retry_witness :
  let eager := Toy.model Toy.eager in
  let args := Toy.recog_args 1 0 (1 # 2) in
  let σ : gmap nat Namespace := {[0%nat := args]} in
  step Toy.imports eager 4%nat None args None None 0
    [initial_hyp Toy.imports eager None None] [] = Ok ([], []) ∧
  search_loop Toy.imports eager 4%nat None args None None [0; 1; 2; 3]%nat
    [initial_hyp Toy.imports eager None None] [] = Ok [] ∧
  recognize_beam Toy.imports eager 2 4%nat None 0%nat None None σ
  = recognize_beam Toy.imports eager 1 4%nat None (fresh (dom σ)) None None
      (<[fresh (dom σ) := relaxed args]> σ) ∧
  ∃ nbest,
    (recognize_beam Toy.imports eager 2 4%nat None 0%nat None None σ).2 = Ok nbest ∧
    nbest ≠ [].
Proof.
  intros eager args σ.
  pose proof (empty_beam_retry Toy.imports eager 4%nat None args None None)
    as (Hloop & Hretry & Hnonempty).
  assert (step Toy.imports eager 4%nat None args None None 0
            [initial_hyp Toy.imports eager None None] [] = Ok ([], [])) as Hstep
    by (vm_compute; reflexivity).
  split_and!.
  - exact Hstep.
  - exact (Hloop _ _ _ Hstep).
  - apply Hretry; [reflexivity|]. exact (Hloop 0%nat [1; 2; 3]%nat _ Hstep).
  - eexists.
    assert ((recognize_beam Toy.imports eager 2 4%nat None 0%nat None None σ).2
            = Ok _) as Hcall by (vm_compute; reflexivity).
    split; [exact Hcall|]. exact (Hnonempty _ _ _ _ Hcall).
Defined.


Lemma double_eos_at_maxlen_witness :
  let eager := Toy.model Toy.eager in
  let args := Toy.recog_args 1 0 0 in
  Z.of_nat 0 = maxlen eager 1%nat args - 1 ∧
  ∃ ended' remained pruned fin,
    step Toy.imports eager 1%nat None args None None 0
      [initial_hyp Toy.imports eager None None] [] = Ok (ended', remained) ∧
    prune Toy.imports eager 1%nat None args None
      [initial_hyp Toy.imports eager None None] 0 [] = Ok pruned ∧
    ended' = [] ++ fin ∧
    Forall2 (ended_from args None 0)
      (filter (long_enough eager 1%nat args) (append_eos eager <$> pruned)) fin ∧
    yseq <$> pruned = [[Toy.EOS; Toy.EOS]] ∧
    yseq <$> fin = [[Toy.EOS; Toy.EOS; Toy.EOS]].
Proof.
  intros eager args.
  assert (Z.of_nat 0 = maxlen eager 1%nat args - 1) as Hi by reflexivity.
  split; [exact Hi|]. eexists _, _.
  assert (step Toy.imports eager 1%nat None args None None 0
            [initial_hyp Toy.imports eager None None] [] = Ok (_, _)) as Hstep
    by (vm_compute; reflexivity).
  destruct (double_eos_at_maxlen Toy.imports eager 1%nat None args None None)
    as [Hgen _].
  destruct (Hgen _ _ _ _ _ Hi Hstep) as (pruned & fin & Hp & Hend & Hfin & _).
  exists pruned, fin. split_and!; [exact Hstep|exact Hp|exact Hend|exact Hfin|..].
  - vm_compute in Hp. injection Hp as <-. reflexivity.
  - simpl in Hend. rewrite <-Hend. reflexivity.
Defined.

Lemma ctc_pruning_witness :
  let self := Toy.model Toy.speller in
  let args := Toy.recog_args 2 (1 # 2) 0 in
  let m := Toy.posteriors 4 in
  let hyp := initial_hyp Toy.imports self (Some m) None in
  ncols m = odim self ∧ 0 <= beam_size args ∧
  ∃ children sc,
    expand Toy.imports self 4%nat (Some m) args None hyp 0 = Ok children ∧
    score_hyp Toy.imports self 4%nat (Some m) args hyp None = Ok sc ∧
    ctc_candidates self 4%nat args m hyp None = [Toy.A; Toy.B; Toy.EOS] ∧
    local_best_ids sc = [Toy.A; Toy.B] ∧
    Forall2 (λ c hyp',
               yseq hyp' = yseq hyp ++ [c] ∧
               score hyp' = (score hyp + combined_score self 4%nat args
                               (CTCPrefixScore Toy.imports m 0%nat (eos self))
                               hyp None () 0 c)%Q)
      (local_best_ids sc) children.
Proof.
  intros self args m hyp.
  assert (ncols m = odim self) as Hm by reflexivity.
  assert (0 <= beam_size args) as Hbeam by (simpl; lia).
  split_and!; [exact Hm|exact Hbeam|]. eexists.
  assert (expand Toy.imports self 4%nat (Some m) args None hyp 0 = Ok _) as Hexp
    by (vm_compute; reflexivity).
  destruct (ctc_pruning Toy.imports self 4%nat args None m hyp 0%nat _
              Hm Hbeam Hexp)
    as (lm & sc & st & prev & Hlm & Hsc & Hst & Hprev & Hrest).
  injection Hlm as <-. injection Hprev as <-. destruct st.
  destruct Hrest as (_ & _ & _ & _ & _ & _ & _ & _ & _ & _ & Hchildren).
  exists sc. split_and!; [exact Hexp|exact Hsc|reflexivity| |exact Hchildren].
  vm_compute in Hsc. injection Hsc as <-. reflexivity.
Defined.

(** * Where the code departs from the specification *)

(** With [ctc_weight = 1] the CTC scorer is given the whole vocabulary of 4
    tokens, not [min(4, floor(2 * 1.5)) = 3] of them. *)
Lemma ctc_candidates_at_weight_one :
  let self := Toy.model Toy.speller in
  let args := Toy.recog_args 2 1 0 in
  let m := Toy.posteriors 4 in
  let hyp := initial_hyp Toy.imports self (Some m) None in
  (∃ children, expand Toy.imports self 4%nat (Some m) args None hyp 0 = Ok children) ∧
  length (ctc_candidates self 4%nat args m hyp None) = 4%nat ∧
  Z.min (Z.of_nat (ncols m)) (Qfloor (inject_Z (beam_size args) * (3 # 2))) = 3 ∧
  Z.of_nat (length (ctc_candidates self 4%nat args m hyp None))
  ≠ Z.min (Z.of_nat (ncols m)) (Qfloor (inject_Z (beam_size args) * (3 # 2))).
Proof.
  intros self args m hyp. split_and!.
  - eexists. vm_compute. reflexivity.
  - reflexivity.
  - reflexivity.
  - vm_compute. discriminate.
Qed.

(** The beam is empty after the first step and nothing has ended, yet the
    call returns a hypothesis: it has run the search again. *)
Lemma empty_beam_not_returned :
  let eager := Toy.model Toy.eager in
  let args := Toy.recog_args 1 0 (1 # 2) in
  step Toy.imports eager 4%nat None args None None 0
    [initial_hyp Toy.imports eager None None] [] = Ok ([], []) ∧
  search Toy.imports eager 4%nat None args None None = Ok [] ∧
  ∃ nbest,
    (recognize_beam Toy.imports eager 2 4%nat None 0%nat None None
       {[0%nat := args]}).2 = Ok nbest ∧
    yseq <$> nbest = [[Toy.EOS; Toy.EOS]] ∧
    (recognize_beam Toy.imports eager 2 4%nat None 0%nat None None
       {[0%nat := args]}).2 ≠ Ok [].
Proof.
  intros eager args. split_and!.
  - vm_compute. reflexivity.
  - vm_compute. reflexivity.
  - eexists. split_and!.
    + vm_compute. reflexivity.
    + reflexivity.
    + vm_compute. discriminate.
Qed.


(** With a language model the candidates for the CTC scorer are ranked by
    the attention score plus the weighted score of the language model: here
    the only candidate is [B], whose attention score is below that of [A]. *)
Lemma ctc_candidates_with_lm :
  let self := Toy.model Toy.speller in
  let m := Toy.posteriors 4 in
  let hyp := initial_hyp Toy.imports self (Some m) (Some Toy.lm) in
  ∃ lm,
    lm_predict (Some Toy.lm) hyp 0 = Ok lm ∧
    ctc_candidates self 4%nat Toy.lm_args m hyp lm = [Toy.B] ∧
    (decoder self 4%nat (yseq hyp) Toy.B < decoder self 4%nat (yseq hyp) Toy.A)%Q.
Proof.
  intros self m hyp. eexists. split_and!.
  - reflexivity.
  - reflexivity.
  - reflexivity.
Qed.

(** * What a pass of the search can raise, and the shape of its hypotheses *)

Lemma only_IndexError_bind {A B} (m : result A) (f : A → result B) :
  only_IndexError m → (∀ a, m = Ok a → only_IndexError (f a)) →
  only_IndexError (m ≫= f).
Proof. destruct m; simpl; auto. Qed.

Lemma only_IndexError_index {A} (l : list A) i : only_IndexError (index l i).
Proof. unfold index. by destruct (l !! i). Qed.


Lemma take_ids_in_range {A} (v : list A) ids :
  Forall (λ i, (i < length v)%nat) ids → ∃ xs, take_ids v ids = Ok xs.
Proof.
  induction 1 as [|i ids Hi _ [xs IH]]; simpl; [by eexists|].
  destruct (lookup_lt_is_Some_2 v i Hi) as [x Hx].
  exists (x :: xs). unfold index. rewrite Hx. simpl. by rewrite IH.
Qed.

Lemma slice_to_argsort_desc_lt n (v : list Q) :
  Forall (λ i, (i < length v)%nat) (Py.slice_to n (Py.argsort_desc v)).
Proof.
  apply Forall_forall. intros i Hi.
  apply (sublist_subseteq _ _ (PyFacts.slice_to_sublist _ _)) in Hi.
  by apply PyFacts.elem_of_argsort_desc.
Qed.

Lemma Forall_slice_to {A} (P : A → Prop) n (l : list A) :
  Forall P l → Forall P (Py.slice_to n l).
Proof.
  rewrite !Forall_forall. intros Hl x Hx. apply Hl.
  by apply (sublist_subseteq _ _ (PyFacts.slice_to_sublist n l)).
Qed.

Section SafetyFacts.
Context {LMState CTCState Enc Feat : Type}.
Context (imports : @Imports LMState CTCState) (self : @E2E Enc Feat).
Context (h : Enc) (lpz : option Matrix) (args : Namespace).
Context (char_list : option (list string)) (rnnlm : option (@RNNLM LMState)).

Implicit Types hyp : @Hyp LMState CTCState.
Implicit Types hyps ended remained pruned : list (@Hyp LMState CTCState).

Lemma lm_predict_live i hyp :
  live self lpz rnnlm i hyp →
  ∃ lm, lm_predict rnnlm hyp i = Ok lm ∧ (is_Some lm ↔ is_Some rnnlm).
Proof.
  intros [(toks & Hy & Hlen & _) [Hlm _]]. unfold lm_predict.
  destruct rnnlm as [m|]; [|by exists None].
  destruct Hlm as [prev ->]; [done|]. simpl.
  destruct (lookup_lt_is_Some_2 (yseq hyp) i) as [y Hi].
  { rewrite Hy. simpl. lia. }
  unfold index. rewrite Hi. simpl. eexists. split; [done|]. by split.
Qed.

(** Scoring a hypothesis that has its keys raises nothing. *)
Lemma score_hyp_total hyp lm :
  has_keys lpz rnnlm hyp →
  ∃ sc, score_hyp imports self h lpz args hyp lm = Ok sc.
Proof.
  intros [_ Hctc]. unfold score_hyp. destruct lpz as [m|].
  - destruct Hctc as [[st ->] [prev ->]]; [done|]. simpl.
    set (ids := ctc_candidates self h args m hyp lm).
    destruct (take_ids_in_range (local_att_scores self h hyp) ids) as [att Hatt].
    { apply Forall_forall. intros c Hc%ctc_candidates_lt.
      by rewrite length_local_att_scores. }
    rewrite Hatt. simpl.
    apply (take_ids_fmap (decoder self h (yseq hyp))) in Hatt as ->;
      [|by intros i x [_ ->]%lookup_local_att_scores].
    rewrite joint_scores_combined.
    set (joint := combined_score self h args _ hyp lm st prev <$> ids).
    destruct (take_ids_in_range joint (Py.slice_to (beam args) (Py.argsort_desc joint)))
      as [bs Hbs]; [apply slice_to_argsort_desc_lt|].
    rewrite Hbs. simpl.
    destruct (take_ids_in_range ids (Py.slice_to (beam args) (Py.argsort_desc joint)))
      as [bi Hbi].
    { eapply Forall_impl; [apply slice_to_argsort_desc_lt|].
      intros i. unfold joint. by rewrite length_fmap. }
    rewrite Hbi. simpl. by eexists.
  - set (v := local_scores self h args hyp lm).
    destruct (take_ids_in_range v (Py.slice_to (beam args) (Py.argsort_desc v)))
      as [bs Hbs]; [apply slice_to_argsort_desc_lt|].
    rewrite Hbs. simpl. by eexists.
Qed.

Lemma only_IndexError_new_hyp hyp lm sc j :
  only_IndexError (new_hyp lpz hyp lm sc j).
Proof.
  unfold new_hyp.
  apply only_IndexError_bind; [apply only_IndexError_index|]. intros s _.
  apply only_IndexError_bind; [apply only_IndexError_index|]. intros y _.
  apply only_IndexError_bind; [|by intros].
  destruct lpz; [|done].
  apply only_IndexError_bind; [apply only_IndexError_index|]. intros jj _.
  apply only_IndexError_bind; [apply only_IndexError_index|]. intros st _.
  apply only_IndexError_bind; [apply only_IndexError_index|]. by intros cs _.
Qed.

Lemma only_IndexError_new_hyps hyp lm sc js :
  only_IndexError (new_hyps lpz hyp lm sc js).
Proof.
  induction js as [|j js IH]; simpl; [done|].
  apply only_IndexError_bind; [apply only_IndexError_new_hyp|]. intros x _.
  apply only_IndexError_bind; [done|]. by intros xs _.
Qed.


Lemma new_hyp_keys hyp lm sc j hyp' :
  (is_Some lm ↔ is_Some rnnlm) →
  new_hyp lpz hyp lm sc j = Ok hyp' → has_keys lpz rnnlm hyp'.
Proof.
  intros Hlm. unfold new_hyp.
  intros (s & _ & (y & _ & (c & Hc & [= <-])%bind_Ok)%bind_Ok)%bind_Ok.
  split; simpl.
  - intros Hr%Hlm. destruct lm as [[? ?]|]; [done|]. by destruct Hr.
  - intros Hl. destruct lpz; [|by destruct Hl].
    apply bind_Ok in Hc as (jj & _ & (st & _ & (cs & _ & [= <-])%bind_Ok)%bind_Ok).
    by split.
Qed.

(** The children of a live hypothesis have one token more, and their keys. *)
Lemma expand_children i hyp children :
  live self lpz rnnlm i hyp →
  expand imports self h lpz args rnnlm hyp i = Ok children →
  Forall (λ hyp', (∃ y, yseq hyp' = yseq hyp ++ [y]) ∧ has_keys lpz rnnlm hyp')
    children.
Proof.
  intros Hlive. unfold expand.
  destruct (lm_predict_live _ _ Hlive) as (lm & -> & Hlm). simpl.
  intros (sc & _ & Hnew%new_hyps_Forall2)%bind_Ok.
  apply Forall_forall. intros hyp' [k Hk]%list_elem_of_lookup.
  destruct (Forall2_lookup_r _ _ _ _ _ Hnew Hk) as (j & _ & Hj).
  split; [|by eapply new_hyp_keys].
  apply new_hyp_yseq in Hj as (s & y & _ & _ & _ & ->). by exists y.
Qed.

Lemma new_hyps_total hyp lm sc js :
  Forall (λ j, ∃ hyp', new_hyp lpz hyp lm sc j = Ok hyp') js →
  ∃ children, new_hyps lpz hyp lm sc js = Ok children.
Proof.
  induction 1 as [|j js [hyp' Hj] _ [children IH]]; simpl; [by eexists|].
  rewrite Hj. simpl. rewrite IH. simpl. by eexists.
Qed.

Lemma beam_le_scoring_ratio :
  0 <= beam_size args →
  beam_size args <= Py.int (inject_Z (beam args) * CTC_SCORING_RATIO).
Proof.
  intros Hb. unfold beam.
  assert (0 <= inject_Z (beam_size args))%Q as H0.
  { change 0%Q with (inject_Z 0). by rewrite <-Zle_Qle. }
  rewrite PyFacts.int_floor by (by apply Qmult_le_0_compat).
  rewrite <-(Qfloor_Z (beam_size args)) at 1. apply Qfloor_resp_le.
  unfold Qle, CTC_SCORING_RATIO. cbn [Qnum Qden Qmult inject_Z]. lia.
Qed.

Lemma length_ctc_candidates_min m hyp lm :
  0 <= beam_size args →
  length (ctc_candidates self h args m hyp lm)
  = (Z.to_nat (ctc_beam args m) `min` odim self)%nat.
Proof.
  intros Hb. pose proof (ctc_beam_range args m Hb) as Hr.
  unfold ctc_candidates. rewrite PyFacts.slice_to_take by lia.
  by rewrite length_take, PyFacts.length_argsort_desc, length_local_scores.
Qed.

Lemma beam_le_ctc_beam m :
  0 <= beam_size args → beam_size args <= Z.of_nat (ncols m) →
  beam_size args <= ctc_beam args m.
Proof.
  intros Hb Hm. unfold ctc_beam. destruct (negb _); [|done].
  apply Z.min_glb; [done|]. by apply beam_le_scoring_ratio.
Qed.

(** With a beam that fits, a live hypothesis is expanded without error. *)
Lemma expand_total i hyp :
  beam_fits self lpz args → live self lpz rnnlm i hyp →
  ∃ children, expand imports self h lpz args rnnlm hyp i = Ok children.
Proof.
  intros [[Hb0 Hb1] Hcols] Hlive. unfold expand.
  destruct (lm_predict_live _ _ Hlive) as (lm & -> & Hlm). simpl.
  destruct (score_hyp_total hyp lm) as [sc Hsc]; [apply Hlive|].
  rewrite Hsc. simpl. apply new_hyps_total.
  apply Forall_forall. intros j [_ Hj]%elem_of_seq. simpl in Hj.
  unfold new_hyp. destruct lpz as [m|].
  - destruct (score_hyp_ctc _ _ _ _ _ _ _ _ Hsc)
      as (st & prev & _ & _ & Hcs & Hct & Hjids & Hids & Hscores).
    simpl in *.
    assert (length (joint_best_ids sc) = Z.to_nat (beam args)) as Hlen.
    { rewrite Hjids, PyFacts.slice_to_take by done.
      rewrite length_take, PyFacts.length_argsort_desc, length_fmap.
      rewrite length_ctc_candidates_min by done.
      pose proof (beam_le_ctc_beam m Hb0 (Hcols m eq_refl)). unfold beam. lia. }
    destruct (lookup_lt_is_Some_2 (joint_best_ids sc) j) as [jj Hjj]; [lia|].
    destruct (Forall2_lookup_l _ _ _ _ _ Hids Hjj) as (y & Hy & Hjy).
    destruct (Forall2_lookup_l _ _ _ _ _ Hscores Hjj) as (s & Hs & _).
    unfold index. rewrite Hs, Hy, Hjj. simpl.
    rewrite Hct, Hcs, !list_lookup_fmap, Hjy. simpl. by eexists.
  - unfold score_hyp in Hsc.
    apply bind_Ok in Hsc as (bs & Hbs%take_ids_Ok & [= <-]). simpl.
    assert (length (Py.slice_to (beam args)
              (Py.argsort_desc (local_scores self h args hyp lm)))
            = Z.to_nat (beam args)) as Hlen.
    { rewrite PyFacts.slice_to_take by done.
      rewrite length_take, PyFacts.length_argsort_desc, length_local_scores.
      unfold beam. lia. }
    destruct (lookup_lt_is_Some_2 (Py.slice_to (beam args)
                (Py.argsort_desc (local_scores self h args hyp lm))) j)
      as [y Hy]; [lia|].
    destruct (Forall2_lookup_l _ _ _ _ _ Hbs Hy) as (s & Hs & _).
    unfold index. rewrite Hs, Hy. simpl. by eexists.
Qed.

(** With more beam than vocabulary the expansion raises [IndexError]. *)
Lemma expand_beam_too_large i hyp :
  Z.of_nat (odim self) < beam_size args → live self lpz rnnlm i hyp →
  expand imports self h lpz args rnnlm hyp i = Raise IndexError.
Proof.
  intros Hbig Hlive. unfold expand.
  destruct (lm_predict_live _ _ Hlive) as (lm & -> & Hlm). simpl.
  destruct (score_hyp_total hyp lm) as [sc Hsc]; [apply Hlive|].
  rewrite Hsc. simpl.
  pose proof (only_IndexError_new_hyps hyp lm sc (Py.range (beam args))) as Hsafe.
  destruct (new_hyps lpz hyp lm sc (Py.range (beam args))) as [children| |] eqn:E;
    [|by rewrite Hsafe|done].
  exfalso. apply new_hyps_Forall2 in E.
  assert (Py.range (beam args) !! odim self = Some (odim self)) as Hj.
  { unfold Py.range, beam. apply lookup_seq. lia. }
  destruct (Forall2_lookup_l _ _ _ _ _ E Hj) as (hyp' & _ & Hnew).
  apply new_hyp_yseq in Hnew as (s & y & _ & Hy%lookup_lt_Some & _).
  assert (length (local_best_ids sc) <= odim self)%nat; [|lia].
  clear Hy. unfold score_hyp in Hsc. destruct lpz as [m|].
  - destruct (score_hyp_ctc _ _ _ _ _ _ _ _ Hsc)
      as (st & prev & _ & _ & _ & _ & Hjids & Hids & _).
    rewrite <-(Forall2_length _ _ _ Hids), Hjids.
    etrans; [apply sublist_length, PyFacts.slice_to_sublist|].
    rewrite PyFacts.length_argsort_desc, length_fmap.
    unfold ctc_candidates.
    etrans; [apply sublist_length, PyFacts.slice_to_sublist|].
    by rewrite PyFacts.length_argsort_desc, length_local_scores.
  - apply bind_Ok in Hsc as (bs & _ & [= <-]). simpl.
    etrans; [apply sublist_length, PyFacts.slice_to_sublist|].
    by rewrite PyFacts.length_argsort_desc, length_local_scores.
Qed.

Lemma expand_child i hyp children :
  live self lpz rnnlm i hyp →
  expand imports self h lpz args rnnlm hyp i = Ok children →
  Forall (child self lpz rnnlm i) children.
Proof.
  intros Hlive Hexp.
  eapply Forall_impl; [by eapply expand_children|].
  intros hyp' [[y Hy] Hkeys]. split; [|done].
  destruct Hlive as [(toks & Htoks & Hlen & Hne) _].
  exists toks, y. by rewrite Hy, Htoks.
Qed.

Lemma prune_child i hyps kept pruned :
  Forall (live self lpz rnnlm i) hyps →
  Forall (child self lpz rnnlm i) kept →
  prune imports self h lpz args rnnlm hyps i kept = Ok pruned →
  Forall (child self lpz rnnlm i) pruned.
Proof.
  intros Hlive. revert kept.
  induction Hlive as [|hyp hyps Hhyp _ IH]; intros kept Hkept; simpl.
  - by intros [= <-].
  - intros (children & Hexp & Hrest)%bind_Ok.
    eapply IH; [|exact Hrest].
    apply Forall_slice_to.
    rewrite PyFacts.sorted_desc_perm. apply Forall_app. split; [done|].
    by eapply expand_child.
Qed.




Lemma append_eos_keys hyp :
  has_keys lpz rnnlm hyp → has_keys lpz rnnlm (append_eos self hyp).
Proof. done. Qed.







(** What a step leaves: live hypotheses for the next step, and more complete
    ones in the ended list. *)
Lemma step_outcome i hyps ended ended' remained :
  Z.of_nat i < maxlen self h args →
  Forall (live self lpz rnnlm i) hyps →
  step imports self h lpz args char_list rnnlm i hyps ended = Ok (ended', remained) →
  Forall (live self lpz rnnlm (S i)) remained ∧
  ∃ fin, ended' = ended ++ fin ∧ Forall (complete self h args) fin.
Proof.
  intros Hi Hlive (pruned & Hp & Hc)%step_inv.
  apply prune_child in Hp; [|done|done].
  apply collect_ended_spec in Hc as (-> & fin & -> & Hfin). simpl.
  assert (Forall (complete self h args) fin) as Hcomplete.
  { apply Forall_forall. intros hyp' [k Hk]%list_elem_of_lookup.
    destruct (Forall2_lookup_r _ _ _ _ _ Hfin Hk) as (hyp & Hhyp & [Hy _]).
    apply list_elem_of_lookup_2, list_elem_of_filter in Hhyp as [[Hends _] Hin].
    unfold complete. rewrite Hy. clear Hy Hk hyp'.
    unfold force_eos in Hin. destruct (Z.eqb_spec (Z.of_nat i) (maxlen self h args - 1)).
    - apply list_elem_of_fmap in Hin as (hyp0 & -> & Hin).
      rewrite Forall_forall in Hp.
      destruct (Hp _ Hin) as [(toks & y & Hy & Hlen & Hne) _].
      exists toks, [y]. simpl. rewrite Hy. split_and!; [|done|done|].
      + simpl. by rewrite <-app_assoc.
      + simpl. rewrite !length_app. simpl. lia.
    - rewrite Forall_forall in Hp.
      destruct (Hp _ Hin) as [(toks & y & Hy & Hlen & Hne) _].
      unfold ends_with_eos in Hends. rewrite Hy in Hends.
      change (sos self :: toks ++ [y]) with ((sos self :: toks) ++ [y]) in Hends.
      rewrite last_snoc in Hends. injection Hends as ->.
      exists toks, []. rewrite Hy. split_and!; [done..|simpl; lia|].
      simpl. rewrite length_app. simpl. lia. }
  split; [|by exists fin].
  apply Forall_forall. intros hyp [Hnot Hin]%list_elem_of_filter.
  unfold force_eos in Hin. destruct (Z.eqb_spec (Z.of_nat i) (maxlen self h args - 1)).
  - apply list_elem_of_fmap in Hin as (hyp0 & -> & _).
    destruct Hnot. apply append_eos_ends.
  - rewrite Forall_forall in Hp.
    destruct (Hp _ Hin) as [(toks & y & Hy & Hlen & Hne) Hkeys].
    split; [|done]. exists (toks ++ [y]). split_and!.
    + by rewrite Hy.
    + rewrite length_app. simpl. lia.
    + apply Forall_app. split; [done|]. apply Forall_singleton.
      intros ->. apply Hnot. unfold ends_with_eos. rewrite Hy.
      change (sos self :: toks ++ [eos self])
        with ((sos self :: toks) ++ [eos self]).
      apply last_snoc.
Qed.

Lemma step_index_lt i k :
  (i + S k)%nat = Z.to_nat (maxlen self h args) →
  Z.of_nat i < maxlen self h args.
Proof. lia. Qed.


Lemma search_loop_complete k i hyps ended res :
  (i + k)%nat = Z.to_nat (maxlen self h args) →
  Forall (live self lpz rnnlm i) hyps →
  Forall (complete self h args) ended →
  search_loop imports self h lpz args char_list rnnlm (seq i k) hyps ended = Ok res →
  Forall (complete self h args) res.
Proof.
  revert i hyps ended.
  induction k as [|k IH]; intros i hyps ended Hk Hlive Hended; simpl.
  - by intros [= <-].
  - intros ([ended' remained] & Hstep & Hrest)%bind_Ok.
    apply step_outcome in Hstep as [Hrem (fin & -> & Hfin)];
      [|by eapply step_index_lt|done].
    assert (Forall (complete self h args) (ended ++ fin)) as Hended'.
    { apply Forall_app. by split. }
    destruct (_ && _); [by simplify_eq|].
    destruct remained as [|hyp remained]; [by simplify_eq|].
    apply bind_Ok in Hrest as (_ & _ & Hrest).
    eapply IH; [|exact Hrem|exact Hended'|exact Hrest]. lia.
Qed.


Lemma initial_hyp_live :
  Forall (live self lpz rnnlm 0) [initial_hyp imports self lpz rnnlm].
Proof.
  apply Forall_singleton. split.
  - exists []. by split_and!.
  - split; simpl.
    + by destruct rnnlm.
    + by destruct lpz.
Qed.

Lemma length_expand hyp i children :
  expand imports self h lpz args rnnlm hyp i = Ok children →
  length children = Z.to_nat (beam_size args).
Proof.
  unfold expand.
  intros (lm & _ & (sc & _ & Hnew%new_hyps_Forall2)%bind_Ok)%bind_Ok.
  rewrite <-(Forall2_length _ _ _ Hnew). apply length_seq.
Qed.





Lemma search_beam_zero :
  beam_size args = 0 → char_list = None →
  search imports self h lpz args char_list rnnlm = Ok [].
Proof.
  intros Hzero ->. unfold search, Py.range.
  destruct (Z.to_nat (maxlen self h args)) as [|n]; [done|]. simpl.
  destruct (expand_total 0 (initial_hyp imports self lpz rnnlm)) as [children Hexp].
  { split; [lia|]. intros m _. lia. }
  { eapply Forall_singleton, initial_hyp_live. }
  unfold step. simpl. rewrite Hexp. simpl.
  pose proof (length_expand _ _ _ Hexp) as Hlen. rewrite Hzero in Hlen.
  destruct children; [|done]. unfold beam. rewrite Hzero. simpl.
  unfold force_eos. destruct (_ =? _); simpl; by destruct (_ && _).
Qed.

Lemma search_no_step :
  maxlen self h args <= 0 →
  search imports self h lpz args char_list rnnlm = Ok [].
Proof.
  intros Hmax. unfold search, Py.range.
  by replace (Z.to_nat (maxlen self h args)) with 0%nat by lia.
Qed.

Lemma search_beam_too_large :
  Z.of_nat (odim self) < beam_size args → 0 < maxlen self h args →
  search imports self h lpz args char_list rnnlm = Raise IndexError.
Proof.
  intros Hbig Hmax. unfold search, Py.range.
  destruct (Z.to_nat (maxlen self h args)) as [|n] eqn:E; [lia|]. simpl.
  unfold step. simpl.
  rewrite (expand_beam_too_large 0 (initial_hyp imports self lpz rnnlm)); [done..|].
  eapply Forall_singleton, initial_hyp_live.
Qed.

Lemma search_loop_prefix steps hyps ended res :
  search_loop imports self h lpz args char_list rnnlm steps hyps ended = Ok res →
  ended `prefix_of` res.
Proof.
  revert hyps ended. induction steps as [|i steps IH]; intros hyps ended; simpl.
  - by intros [= <-].
  - intros ([ended' remained] & Hstep & Hrest)%bind_Ok.
    apply step_inv in Hstep as (pruned & _ & Hc).
    apply collect_ended_spec in Hc as (_ & fin & -> & _).
    assert (ended `prefix_of` ended ++ fin) as Hpre by (by exists fin).
    destruct (_ && _); [by simplify_eq|].
    destruct remained as [|hyp remained]; [by simplify_eq|].
    apply bind_Ok in Hrest as (_ & _ & Hrest).
    etrans; [exact Hpre|]. by eapply IH.
Qed.

Lemma search_loop_length steps hyps ended res :
  0 <= beam_size args →
  search_loop imports self h lpz args char_list rnnlm steps hyps ended = Ok res →
  Z.of_nat (length res)
  <= Z.of_nat (length ended) + Z.of_nat (length steps) * beam_size args.
Proof.
  intros Hbeam. revert hyps ended.
  induction steps as [|i steps IH]; intros hyps ended; simpl length.
  - intros [= <-]. lia.
  - simpl. intros ([ended' remained] & Hstep & Hrest)%bind_Ok.
    apply step_inv in Hstep as (pruned & Hp & Hc).
    apply prune_length in Hp; [|done|simpl; unfold beam; lia].
    apply collect_ended_spec in Hc as (_ & fin & -> & Hfin).
    assert (Z.of_nat (length fin) <= beam_size args) as Hfinlen.
    { rewrite <-(Forall2_length _ _ _ Hfin). etrans; [|exact Hp].
      apply Nat2Z.inj_le. etrans; [apply length_filter|].
      unfold force_eos. destruct (_ =? _); [by rewrite length_map|done]. }
    assert (Z.of_nat (length (ended ++ fin))
            <= Z.of_nat (length ended) + Z.of_nat (S (length steps)) * beam_size args)
      as Hnow by (rewrite length_app; nia).
    destruct (_ && _); [by simplify_eq|].
    destruct remained as [|hyp remained]; [by simplify_eq|].
    apply bind_Ok in Hrest as (_ & _ & Hrest).
    apply IH in Hrest. rewrite length_app in Hrest. nia.
Qed.

Lemma search_without_logging res :
  search imports self h lpz args char_list rnnlm = Ok res →
  search imports self h lpz args None rnnlm = Ok res.
Proof.
  unfold search. generalize (Py.range (maxlen self h args)).
  generalize [initial_hyp imports self lpz rnnlm].
  generalize (@nil (@Hyp LMState CTCState)).
  intros ended hyps steps. revert hyps ended.
  induction steps as [|i steps IH]; intros hyps ended; simpl; [done|].
  intros ([ended' remained] & Hstep & Hrest)%bind_Ok.
  assert (step imports self h lpz args None rnnlm i hyps ended
          = Ok (ended', remained)) as ->.
  { unfold step in *.
    apply bind_Ok in Hstep as (pruned & -> & (_ & _ & Hc)%bind_Ok). done. }
  simpl. destruct (_ && _); [done|].
  destruct remained as [|hyp remained]; [done|].
  apply bind_Ok in Hrest as (_ & _ & Hrest). simpl. by apply IH.
Qed.

End SafetyFacts.

(** * Further properties of the beam search *)


Section BeamSearchProperties.
Context {LMState CTCState Enc Feat : Type}.
Context (imports : @Imports LMState CTCState) (self : @E2E Enc Feat).
Context (h : Enc) (lpz : option Matrix).
Context (char_list : option (list string)) (rnnlm : option (@RNNLM LMState)).

Implicit Types hyp : @Hyp LMState CTCState.
Implicit Types σ : gmap nat Namespace.
Implicit Types args : Namespace.

(** A result of [recognize_beam] is the sorted ended list of a pass, run on
    the caller's arguments up to [minlenratio]. *)
Lemma recognize_beam_Ok fuel (r : nat) σ args nbest :
  σ !! r = Some args →
  (recognize_beam imports self fuel h lpz r char_list rnnlm σ).2 = Ok nbest →
  ∃ m ended,
    search imports self h lpz (set_minlenratio m args) char_list rnnlm = Ok ended ∧
    nbest = Py.sorted_desc score ended.
Proof.
  revert r σ args. induction fuel as [|fuel IH]; intros r σ args Hr; simpl; [done|].
  rewrite Hr.
  destruct (search _ _ _ _ _ _ _) as [ended|e'|] eqn:Hs; [|done..].
  destruct (Py.sorted_desc score ended) as [|hyp l] eqn:E; simpl.
  - rewrite retry_store. intros He.
    eapply IH in He as (m & ended' & Hm & ->); [|apply lookup_insert_eq].
    by exists m, ended'.
  - destruct (log_total _); simpl; [|done..]. intros [= <-].
    exists (minlenratio args), ended. by rewrite set_minlenratio_id.
Qed.



(** X3. A [beam_size] above the size of the vocabulary makes the first
    step raise [IndexError], with or without CTC posteriors, language model
    and [char_list]. *)
Theorem beam_exceeds_vocabulary fuel (r : nat) σ args :
  Z.of_nat (odim self) < beam_size args → 0 < maxlen self h args →
  σ !! r = Some args →
  search imports self h lpz args char_list rnnlm = Raise IndexError ∧
  recognize_beam imports self (S fuel) h lpz r char_list rnnlm σ
  = (σ, Raise IndexError).
Proof.
  intros Hbig Hmax Hr.
  pose proof (search_beam_too_large imports self h lpz args char_list rnnlm
                Hbig Hmax) as Hs.
  split; [done|]. simpl. by rewrite Hr, Hs.
Qed.

(** X4. Every hypothesis that [recognize_beam] returns starts with SOS and
    ends with EOS; between them no token is EOS, except that the token
    before the last may be; and it has at most [maxlen + 2] tokens. *)
Theorem returned_hypotheses_complete fuel (r : nat) σ args nbest :
  σ !! r = Some args →
  (recognize_beam imports self fuel h lpz r char_list rnnlm σ).2 = Ok nbest →
  ∀ hyp, hyp ∈ nbest →
    ∃ toks tail,
      yseq hyp = sos self :: toks ++ tail ++ [eos self] ∧
      Forall (λ y, y ≠ eos self) toks ∧
      (length tail <= 1)%nat ∧
      Z.of_nat (length (yseq hyp)) <= maxlen self h args + 2.
Proof.
  intros Hr (m & ended & Hs & ->)%(recognize_beam_Ok _ _ _ args); [|done].
  intros hyp Hin. rewrite PyFacts.sorted_desc_perm in Hin.
  unfold search, Py.range in Hs.
  eapply search_loop_complete in Hs; [|done|apply initial_hyp_live|done].
  rewrite Forall_forall in Hs. exact (Hs _ Hin).
Qed.

(** X5. The debug lines written with a [char_list] do not change the result:
    a call that returns with a [char_list] returns the same, and leaves the
    same store, without one. *)
Theorem logging_transparent fuel (r : nat) σ σ' nbest :
  recognize_beam imports self fuel h lpz r char_list rnnlm σ = (σ', Ok nbest) →
  recognize_beam imports self fuel h lpz r None rnnlm σ = (σ', Ok nbest).
Proof.
  revert r σ. induction fuel as [|fuel IH]; intros r σ; simpl; [done|].
  destruct (σ !! r) as [args|]; [|done].
  destruct (search imports self h lpz args char_list rnnlm) as [ended|e'|] eqn:Hs;
    [|done..].
  rewrite (search_without_logging _ _ _ _ _ _ _ _ Hs).
  destruct (length _ =? 0)%nat; [|done]. simpl. apply IH.
Qed.


(** X7. With a [beam_size] of 0 and no [char_list] every pass ends with an
    empty ended list, so the call runs the search again and again: it
    returns for no amount of fuel. *)
Theorem beam_size_zero_diverges fuel (r : nat) σ args :
  beam_size args = 0 → σ !! r = Some args →
  (recognize_beam imports self fuel h lpz r None rnnlm σ).2 = OutOfFuel.
Proof.
  revert r σ args. induction fuel as [|fuel IH]; intros r σ args Hzero Hr; [done|].
  erewrite recognize_beam_retry; [|done|by apply search_beam_zero].
  eapply IH; [|apply lookup_insert_eq]. done.
Qed.

(** X8. An encoder output of length 0 with [maxlenratio = 0] leaves no step
    to make: every pass ends with an empty ended list and the call returns
    for no amount of fuel. *)
Theorem empty_input_diverges fuel (r : nat) σ args :
  shape0 self h = 0%nat → (maxlenratio args == 0)%Q → σ !! r = Some args →
  (recognize_beam imports self fuel h lpz r char_list rnnlm σ).2 = OutOfFuel.
Proof.
  revert r σ args.
  induction fuel as [|fuel IH]; intros r σ args Hlen Hratio Hr; [done|].
  erewrite recognize_beam_retry; [|done|].
  - eapply IH; [done| |apply lookup_insert_eq]. done.
  - apply search_no_step. unfold maxlen.
    apply Qeq_bool_iff in Hratio. rewrite Hratio, Hlen. done.
Qed.

(** X9. The ended list only grows during a pass: what has ended stays in
    it, at its place, and the pass adds at most [beam_size] hypotheses for
    each step it makes. *)
Theorem ended_list_grows args steps hyps ended res :
  0 <= beam_size args →
  search_loop imports self h lpz args char_list rnnlm steps hyps ended = Ok res →
  ended `prefix_of` res ∧
  Z.of_nat (length res)
  <= Z.of_nat (length ended) + Z.of_nat (length steps) * beam_size args.
Proof.
  intros Hbeam Hs. split.
  - by eapply search_loop_prefix.
  - by eapply search_loop_length.
Qed.

End BeamSearchProperties.

(** * Facts about the greedy search *)

Module NpFacts.

Lemma max_step_spec (pre v : list Q) best value :
  pre !! best = Some value →
  Forall (λ y, (y <= value)%Q) pre →
  ∃ best' value',
    foldl Np.max_step (best, value, length pre) v
    = (best', value', length (pre ++ v)) ∧
    (pre ++ v) !! best' = Some value' ∧
    Forall (λ y, (y <= value')%Q) (pre ++ v).
Proof.
  revert pre best value. induction v as [|x v IH]; intros pre best value Hb Hle.
  - exists best, value. by rewrite app_nil_r.
  - simpl. destruct (Qle_bool x value) eqn:E.
    + destruct (IH (pre ++ [x]) best value) as (b' & v' & Hf & Hl & Ha).
      { by apply lookup_app_l_Some. }
      { apply Forall_app. split; [done|]. apply Forall_singleton.
        by apply Qle_bool_iff. }
      exists b', v'. rewrite <-app_assoc in Hl, Ha, Hf. simpl in *.
      rewrite length_app in Hf. simpl in Hf.
      by replace (length pre + 1)%nat with (S (length pre)) in Hf by lia.
    + apply PyFacts.Qle_bool_false in E.
      destruct (IH (pre ++ [x]) (length pre) x) as (b' & v' & Hf & Hl & Ha).
      { rewrite lookup_app_r by lia. by rewrite Nat.sub_diag. }
      { apply Forall_app. split; [|by apply Forall_singleton, Qle_refl].
        eapply Forall_impl; [exact Hle|]. intros y Hy. simpl in Hy.
        by eapply Qle_trans. }
      exists b', v'. rewrite <-app_assoc in Hl, Ha, Hf. simpl in *.
      rewrite length_app in Hf. simpl in Hf.
      by replace (length pre + 1)%nat with (S (length pre)) in Hf by lia.
Qed.

(** The first maximum is an entry of the vector that no entry exceeds. *)
Lemma first_max_spec (v : list Q) :
  v ≠ [] →
  ∃ i x, Np.first_max v = Some (i, x) ∧ v !! i = Some x ∧
         Forall (λ y, (y <= x)%Q) v.
Proof.
  destruct v as [|x v]; [done|]. intros _. unfold Np.first_max.
  destruct (max_step_spec [x] v 0%nat x) as (b' & v' & Hf & Hl & Ha).
  { done. }
  { apply Forall_singleton, Qle_refl. }
  simpl in Hf. exists b', v'. by rewrite Hf.
Qed.

End NpFacts.

Section GreedyFacts.
Context {Enc Feat : Type}.
Context (self : @E2E Enc Feat) (shape1 : Enc → nat).
Context (prob : Feat → list nat → nat → Q).

(** One step of the greedy search on a vocabulary that is not empty finds the
    largest log-probability and a token that has it. *)
Lemma greedy_step_max x_block ys :
  (0 < odim self)%nat →
  ∃ v q,
    Np.max (map (prob x_block ys) (seq 0 (odim self))) = Return q ∧
    Np.argmax (map (prob x_block ys) (seq 0 (odim self))) = Return v ∧
    best_token self prob x_block ys v ∧ q = prob x_block ys v.
Proof.
  intros Hodim.
  destruct (NpFacts.first_max_spec (map (prob x_block ys) (seq 0 (odim self))))
    as (i & x & Hf & Hi & Hall).
  { destruct (odim self); [lia|done]. }
  unfold Np.max, Np.argmax. rewrite Hf. exists i, x.
  rewrite list_lookup_fmap, fmap_Some in Hi.
  destruct Hi as (i' & [-> Hlt]%lookup_seq & ->). simpl in *.
  split_and!; [done..| |done]. split; [done|].
  intros u Hu. rewrite Forall_forall in Hall. apply Hall.
  apply list_elem_of_fmap. exists u. split; [done|]. apply elem_of_seq. lia.
Qed.

Lemma greedy_loop_cons x_block maxlen step steps ys score v q :
  Np.max (map (prob x_block ys) (seq 0 (odim self))) = Return q →
  Np.argmax (map (prob x_block ys) (seq 0 (odim self))) = Return v →
  greedy_loop self prob x_block maxlen (step :: steps) ys score
  = if Z.of_nat step =? Z.of_nat maxlen - 1 then
      Return (ys ++ [eos self], (score + q)%Q)
    else if (v =? eos self)%nat then Return (ys ++ [v], (score + q)%Q)
    else greedy_loop self prob x_block maxlen steps (ys ++ [v]) (score + q)%Q.
Proof.
  intros Hq Hv. cbn [greedy_loop]. rewrite Hq, Hv. cbn [mbind outcome_bind].
  destruct (Z.of_nat step =? Z.of_nat maxlen - 1); [|done].
  by rewrite Nat.eqb_refl.
Qed.

(** The loop from a prefix without EOS: it ends with EOS, at the last step
    at the latest; every token before that is a best token after its
    prefix; and the score grows by the largest log-probability of every
    step made, the one that ends the loop included. *)
Lemma greedy_loop_spec x_block maxlen k toks score :
  (0 < odim self)%nat →
  (length toks + S k)%nat = maxlen →
  Forall (λ y, y ≠ eos self) toks →
  ∃ more qs,
    greedy_loop self prob x_block maxlen (seq (length toks) (S k))
      (sos self :: toks) score
    = Return (sos self :: toks ++ more ++ [eos self],
              foldl Qplus score qs) ∧
    Forall (λ y, y ≠ eos self) more ∧
    (length more <= k)%nat ∧
    length qs = S (length more) ∧
    (∀ j y, more !! j = Some y →
       best_token self prob x_block (sos self :: toks ++ take j more) y) ∧
    (∀ j q, qs !! j = Some q →
       best_prob self prob x_block (sos self :: toks ++ take j more) q).
Proof.
  intros Hodim. revert toks score.
  induction k as [|k IH]; intros toks score Hlen Hne.
  - destruct (greedy_step_max x_block (sos self :: toks) Hodim)
      as (v & q & Hmax & Harg & Hv & Hq).
    cbn [seq]. rewrite (greedy_loop_cons _ _ _ _ _ _ _ _ Hmax Harg).
    replace (Z.of_nat (length toks) =? Z.of_nat maxlen - 1) with true
      by (symmetry; apply Z.eqb_eq; lia).
    exists [], [q]. split_and!; [done|done|done|done| |].
    + by intros j y [=].
    + intros [|j] q' [=]. subst q'. exists v. by rewrite app_nil_r.
  - destruct (greedy_step_max x_block (sos self :: toks) Hodim)
      as (v & q & Hmax & Harg & Hv & Hq).
    cbn [seq]. rewrite (greedy_loop_cons _ _ _ _ _ _ _ _ Hmax Harg).
    replace (Z.of_nat (length toks) =? Z.of_nat maxlen - 1) with false
      by (symmetry; apply Z.eqb_neq; lia).
    destruct (Nat.eqb_spec v (eos self)) as [->|Hv_ne].
    + exists [], [q]. split_and!; [done|done|simpl; lia|done| |].
      * by intros j y [=].
      * intros [|j] q' [=]. subst q'. exists (eos self). by rewrite app_nil_r.
    + destruct (IH (toks ++ [v]) (score + q)%Q)
        as (more & qs & Hloop & Hm1 & Hm2 & Hm3 & Hm4 & Hm5).
      { rewrite length_app. simpl. lia. }
      { apply Forall_app. split; [done|]. by apply Forall_singleton. }
      rewrite length_app in Hloop. cbn [length] in Hloop.
      replace (length toks + 1)%nat with (S (length toks)) in Hloop by lia.
      change ((sos self :: toks) ++ [v]) with (sos self :: toks ++ [v]).
      cbn [seq] in Hloop. rewrite Hloop.
      exists (v :: more), (q :: qs). rewrite <-!app_assoc.
      split_and!; [done| |simpl; lia|simpl; lia| |].
      * by constructor.
      * intros [|j] y Hy; simpl in *.
        { injection Hy as <-. by rewrite app_nil_r. }
        { specialize (Hm4 j y Hy). by rewrite <-app_assoc in Hm4. }
      * intros [|j] q' Hq'; simpl in *.
        { injection Hq' as <-. exists v. by rewrite app_nil_r. }
        { specialize (Hm5 j q' Hq'). by rewrite <-app_assoc in Hm5. }
Qed.

End GreedyFacts.

(** * Properties of the greedy search *)

Section GreedyProperties.
Context {Enc Feat : Type}.
Context (self : @E2E Enc Feat) (shape1 : Enc → nat).
Context (prob : Feat → list nat → nat → Q).
Context (x_block : Feat) (recog_args : Namespace).

(** X10. [recognize_beam2] raises [NotImplementedError] exactly when
    [ctc_weight] is above 0 or [beam_size] is not 1, whatever the input.
    Past these tests, and with a vocabulary that is not empty, it returns:
    the loop ends and no maximum is taken of an empty array. *)
Theorem recognize_beam2_errors :
  let result := recognize_beam2 self shape1 prob x_block recog_args in
  (result = Throw NotImplementedError ↔
     (0 < ctc_weight recog_args)%Q ∨ beam_size recog_args ≠ 1) ∧
  ((ctc_weight recog_args <= 0)%Q ∧ beam_size recog_args = 1 ∧
   (0 < odim self)%nat → ∃ nbest_hyps, result = Return nbest_hyps).
Proof.
  intros result. unfold result, recognize_beam2.
  destruct (Qle_bool (ctc_weight recog_args) 0) eqn:Hw; simpl.
  - apply Qle_bool_iff in Hw.
    destruct (Z.eqb_spec (beam_size recog_args) 1) as [Hb|Hb].
    + replace (shape1 (encoder self x_block) + 1)%nat
        with (S (shape1 (encoder self x_block))) by lia.
      destruct (odim self) as [|n] eqn:Hodim.
      * split; [|lia]. cbn [seq greedy_loop]. rewrite Hodim. simpl. split; [done|].
        intros [Hpos|Hne]; [|done]. by apply Qle_not_lt in Hw.
      * destruct (greedy_loop_spec self prob x_block
                    (S (shape1 (encoder self x_block)))
                    (shape1 (encoder self x_block)) [] 0%Q)
          as (more & qs & Hloop & _); [lia|done|done|].
        simpl length in Hloop. rewrite Hloop. simpl. split.
        -- split; [done|]. intros [Hpos|Hne]; [|done]. by apply Qle_not_lt in Hw.
        -- intros _. by eexists.
    + split; [split; [by right|done]|]. by intros (_ & ? & _).
  - assert ((0 < ctc_weight recog_args)%Q) as Hpos.
    { apply Qnot_le_lt. intros H%Qle_bool_iff. congruence. }
    split; [split; [by left|done]|]. intros (Hle & _). by apply Qle_not_lt in Hle.
Qed.

(** X11. When [recognize_beam2] returns, it returns one hypothesis: SOS,
    tokens other than EOS, and EOS, with at most [xs.shape[1] + 2] tokens. *)
Theorem recognize_beam2_shape nbest_hyps :
  recognize_beam2 self shape1 prob x_block recog_args = Return nbest_hyps →
  ∃ hyp toks,
    nbest_hyps = [hyp] ∧
    greedy_yseq hyp = sos self :: toks ++ [eos self] ∧
    Forall (λ y, y ≠ eos self) toks ∧
    (length (greedy_yseq hyp) <= shape1 (encoder self x_block) + 2)%nat.
Proof.
  unfold recognize_beam2.
  destruct (Qle_bool (ctc_weight recog_args) 0); simpl; [|done].
  destruct (beam_size recog_args =? 1); [|done].
  destruct (odim self) as [|n] eqn:Hodim.
  { replace (shape1 (encoder self x_block) + 1)%nat
      with (S (shape1 (encoder self x_block))) by lia.
    cbn [seq greedy_loop]. rewrite Hodim. done. }
  destruct (greedy_loop_spec self prob x_block
              (shape1 (encoder self x_block) + 1)
              (shape1 (encoder self x_block)) [] 0%Q)
    as (more & qs & Hloop & Hne & Hlen & _); [lia|simpl; lia|done|].
  replace (shape1 (encoder self x_block) + 1)%nat
    with (S (shape1 (encoder self x_block))) in * by lia.
  simpl length in Hloop. rewrite Hloop. simpl. intros [= <-].
  eexists _, more. split_and!; [done..|].
  simpl. rewrite length_app. simpl. lia.
Qed.

(** X12. The search is greedy: every token of the result before the final
    EOS has the largest log-probability after the tokens before it. The
    score is the sum of the largest log-probabilities of all steps made: the
    step that ends the sequence adds the largest log-probability too, also
    when EOS was forced and is not the token that has it. *)
Theorem recognize_beam2_greedy nbest_hyps :
  recognize_beam2 self shape1 prob x_block recog_args = Return nbest_hyps →
  ∃ toks qs,
    nbest_hyps = [{| greedy_score := foldl Qplus 0%Q qs;
                     greedy_yseq := sos self :: toks ++ [eos self] |}] ∧
    length qs = S (length toks) ∧
    (∀ j y, toks !! j = Some y →
       best_token self prob x_block (sos self :: take j toks) y) ∧
    (∀ j q, qs !! j = Some q →
       best_prob self prob x_block (sos self :: take j toks) q).
Proof.
  unfold recognize_beam2.
  destruct (Qle_bool (ctc_weight recog_args) 0); simpl; [|done].
  destruct (beam_size recog_args =? 1); [|done].
  destruct (odim self) as [|n] eqn:Hodim.
  { replace (shape1 (encoder self x_block) + 1)%nat
      with (S (shape1 (encoder self x_block))) by lia.
    cbn [seq greedy_loop]. rewrite Hodim. done. }
  destruct (greedy_loop_spec self prob x_block
              (shape1 (encoder self x_block) + 1)
              (shape1 (encoder self x_block)) [] 0%Q)
    as (more & qs & Hloop & _ & _ & Hqs & Htok & Hq); [lia|simpl; lia|done|].
  replace (shape1 (encoder self x_block) + 1)%nat
    with (S (shape1 (encoder self x_block))) in * by lia.
  simpl length in Hloop. rewrite Hloop. simpl. intros [= <-].
  by exists more, qs.
Qed.

End GreedyProperties.

(** * Properties of the decoder masks *)

Lemma Bc_size_refl n : Bc.size n n = Return n.
Proof. unfold Bc.size. by rewrite Nat.eqb_refl. Qed.

Lemma Bc_pick_lt n i : (i < n)%nat → Bc.pick n i = i.
Proof. unfold Bc.pick. destruct (Nat.eqb_spec n 1); lia. Qed.

(** X13. The mask of the decoder on its own input is causal and skips the
    padding: it has the shape (batch, length, length), and position [i] sees
    position [j] exactly when [j] is not after [i] and neither is padded.
    No array shape makes the construction fail. *)
Theorem decoder_self_mask_causal (ys : Block) :
  ∃ yy_mask,
    decoder_self_mask ys = Return yy_mask ∧
    mask_batch yy_mask = block_batch ys ∧
    mask_rows yy_mask = block_length ys ∧
    mask_cols yy_mask = block_length ys ∧
    ∀ b i j,
      (b < block_batch ys)%nat → (i < block_length ys)%nat →
      (j < block_length ys)%nat →
      (mask_at yy_mask b i j = true ↔
       (j <= i)%nat ∧ 0 <= block_at ys b i ∧ 0 <= block_at ys b j).
Proof.
  unfold decoder_self_mask, make_attention_mask.
  rewrite Bc_size_refl. simpl. unfold mask_imul. simpl.
  rewrite !Nat.eqb_refl. simpl. eexists. split_and!; [done..|].
  intros b i j Hb Hi Hj. simpl.
  rewrite !Bc_pick_lt by done.
  rewrite !andb_true_iff, !Z.leb_le, Nat.leb_le. tauto.
Qed.

(** X14. [make_attention_mask] fails, with [ValueError], exactly when the
    two blocks have different batch sizes and neither is 1. When it returns,
    the mask has a row for every source position and a column for every
    target position, and a source position sees a target position exactly
    when neither is padded. *)
Theorem make_attention_mask_spec (source_block target_block : Block) :
  let bs := block_batch source_block in
  let bt := block_batch target_block in
  (make_attention_mask source_block target_block = Throw ValueError ↔
     bs ≠ bt ∧ bs ≠ 1%nat ∧ bt ≠ 1%nat) ∧
  (∀ mask,
     make_attention_mask source_block target_block = Return mask →
     mask_batch mask = (if (bt =? 1)%nat then bs else bt) ∧
     mask_rows mask = block_length source_block ∧
     mask_cols mask = block_length target_block ∧
     ∀ b s t,
       (b < mask_batch mask)%nat →
       (mask_at mask b s t = true ↔
        0 <= block_at source_block (if (bs =? 1)%nat then 0%nat else b) s ∧
        0 <= block_at target_block (if (bt =? 1)%nat then 0%nat else b) t)).
Proof.
  intros bs bt. unfold make_attention_mask, Bc.size, Bc.pick. fold bs bt.
  destruct (Nat.eqb_spec bt bs) as [Heq|Hne]; simpl.
  - split; [split; [done|lia]|]. intros mask [= <-]. simpl.
    split_and!; [by destruct (bt =? 1)%nat|done..|].
    intros b s t _. rewrite andb_true_iff, !Z.leb_le. tauto.
  - destruct (Nat.eqb_spec bt 1) as [H1|H1]; simpl.
    + split; [split; [done|lia]|]. intros mask [= <-]. simpl.
      split_and!; [done..|].
      intros b s t _. rewrite andb_true_iff, !Z.leb_le. tauto.
    + destruct (Nat.eqb_spec bs 1) as [H2|H2]; simpl.
      * split; [split; [done|lia]|]. intros mask [= <-]. simpl.
        split_and!; [done..|].
        intros b s t _. rewrite andb_true_iff, !Z.leb_le. tauto.
      * split; [split; [intros _; split_and!; congruence|done]|]. done.
Qed.

(** X15. In the beam search the tokens of a hypothesis are never negative
    and the mask of the encoder output is all ones: the decoder sees every
    frame from every position, and from a position the tokens up to it and
    no later one. *)
Theorem beam_search_masks (yseq : list nat) (frames : nat) :
  ∃ yy_mask xy_mask,
    decoder_self_mask (yseq_block yseq) = Return yy_mask ∧
    make_attention_mask (yseq_block yseq) (ones_block frames) = Return xy_mask ∧
    (mask_batch xy_mask, mask_rows xy_mask, mask_cols xy_mask)
    = (1%nat, length yseq, frames) ∧
    (∀ i t, mask_at xy_mask 0 i t = true) ∧
    (∀ i j, (i < length yseq)%nat → (j < length yseq)%nat →
       (mask_at yy_mask 0 i j = true ↔ (j <= i)%nat)).
Proof.
  unfold decoder_self_mask, make_attention_mask.
  rewrite Bc_size_refl. simpl. unfold mask_imul. simpl.
  rewrite !Nat.eqb_refl. simpl. eexists _, _.
  split_and!; [reflexivity|reflexivity|done| |].
  - intros i t. simpl. apply Z.leb_le. lia.
  - intros i j Hi Hj. simpl.
    rewrite !Bc_pick_lt by done.
    rewrite !andb_true_iff, !Z.leb_le, Nat.leb_le. split; [tauto|]. lia.
Qed.

(** * Properties of the loss of the model *)

(** X16. [__init__] fails with [AssertionError] exactly when [mtlalpha] is
    outside [[0, 1]], whatever else it is given; once the links are built it
    fails with [ValueError] exactly when [mtlalpha] is above 0 and [ctc_type]
    is neither [builtin] nor [warpctc]. *)
Theorem init_errors (odim : Z) (args : InitArgs) (links : outcome ()) :
  (init odim args links = Throw AssertionError ↔
     ¬ (0 <= mtlalpha args <= 1)%Q ∨
     (0 <= mtlalpha args <= 1)%Q ∧ links = Throw AssertionError) ∧
  (links = Return () →
     (init odim args links = Throw ValueError ↔
        (0 < mtlalpha args <= 1)%Q ∧
        ctc_type args ≠ "builtin" ∧ ctc_type args ≠ "warpctc")).
Proof.
  unfold init.
  destruct (Qle_bool 0 (mtlalpha args)) eqn:H0;
    destruct (Qle_bool (mtlalpha args) 1) eqn:H1; simpl.
  - apply Qle_bool_iff in H0, H1. split.
    + split.
      * intros Hi. right. split; [done|].
        destruct links as [[]|e]; simpl in *; [|congruence].
        destruct (negb _); [|done].
        by repeat destruct (String.eqb _ _).
      * intros [[]|[_ ->]]; done.
    + intros ->. simpl.
      destruct (Qle_bool (mtlalpha args) 0) eqn:Hz; simpl.
      * apply Qle_bool_iff in Hz. split; [done|].
        intros [[Hpos%Qlt_not_le _] _]. done.
      * assert (0 < mtlalpha args)%Q as Hpos.
        { apply Qnot_le_lt. intros H%Qle_bool_iff. congruence. }
        destruct (String.eqb_spec (ctc_type args) "builtin");
          [split; [done|by intros (_ & ? & _)]|].
        destruct (String.eqb_spec (ctc_type args) "warpctc");
          [split; [done|by intros (_ & _ & ?)]|].
        done.
  - split.
    + split; [|done]. intros _. left. intros [_ H%Qle_bool_iff]. congruence.
    + intros _. split; [done|]. intros [[_ H%Qle_bool_iff] _]. congruence.
  - split.
    + split; [|done]. intros _. left. intros [H%Qle_bool_iff _]. congruence.
    + intros _. split; [done|].
      intros [[H%Qlt_le_weak%Qle_bool_iff _] _]. congruence.
  - split.
    + split; [|done]. intros _. left. intros [H%Qle_bool_iff _]. congruence.
    + intros _. split; [done|].
      intros [[H%Qlt_le_weak%Qle_bool_iff _] _]. congruence.
Qed.

(** X17. A model that [__init__] has built has its [mtlalpha] in [[0, 1]],
    a CTC head exactly when [mtlalpha] is not 0, and SOS and EOS both at
    [odim - 1]. On such a model the choice of the loss in [forward] never
    fails, and the loss is [mtlalpha * loss_ctc + (1 - mtlalpha) * loss_att],
    the attention loss alone when there is no CTC head. *)
Theorem loss_of_built_model (odim : Z) (args : InitArgs) (links : outcome ())
        (self : Heads) (loss_att : Q) (ctc_loss : CTCImpl → Q) :
  init odim args links = Return self →
  (0 <= self_mtlalpha self <= 1)%Q ∧
  (self_ctc self = None ↔ (self_mtlalpha self == 0)%Q) ∧
  self_sos self = odim - 1 ∧ self_eos self = odim - 1 ∧
  ∃ losses,
    select_loss self loss_att ctc_loss = Return losses ∧
    match self_ctc self with
    | Some impl =>
        (loss losses == self_mtlalpha self * ctc_loss impl
                        + (1 - self_mtlalpha self) * loss_att)%Q
    | None => loss losses = loss_att
    end.
Proof.
  unfold init.
  destruct (Qle_bool 0 (mtlalpha args)) eqn:H0; [|done].
  destruct (Qle_bool (mtlalpha args) 1) eqn:H1; [|done]. simpl.
  apply Qle_bool_iff in H0, H1.
  destruct links as [[]|e]; [|done]. simpl.
  destruct (Qle_bool (mtlalpha args) 0) eqn:Hz; simpl.
  - apply Qle_bool_iff in Hz.
    assert (mtlalpha args == 0)%Q as Hzero by (by apply Qle_antisym).
    intros [= <-]. simpl. split_and!; [done..| | |done|done|].
    + done.
    + done.
    + unfold select_loss. simpl.
      apply Qeq_bool_iff in Hzero. rewrite Hzero. by eexists.
  - assert (0 < mtlalpha args)%Q as Hpos.
    { apply Qnot_le_lt. intros H%Qle_bool_iff. congruence. }
    assert (¬ (mtlalpha args == 0)%Q) as Hnz.
    { intros Hq. rewrite Hq in Hpos. by apply Qlt_irrefl in Hpos. }
    assert (∀ impl,
      (0 <= mtlalpha args <= 1)%Q ∧
      (Some impl = None ↔ (mtlalpha args == 0)%Q) ∧
      odim - 1 = odim - 1 ∧ odim - 1 = odim - 1 ∧
      ∃ losses,
        select_loss {| self_mtlalpha := mtlalpha args; self_sos := odim - 1;
                       self_eos := odim - 1; self_ctc := Some impl |}
          loss_att ctc_loss = Return losses ∧
        (loss losses == mtlalpha args * ctc_loss impl
                        + (1 - mtlalpha args) * loss_att)%Q) as Hsome.
    { intros impl. split_and!; [done..|by split|done|done|].
      unfold select_loss. simpl.
      destruct (Qeq_bool (mtlalpha args) 0) eqn:E0.
      { by apply Qeq_bool_iff in E0. }
      destruct (Qeq_bool (mtlalpha args) 1) eqn:E1.
      - apply Qeq_bool_iff in E1. eexists. split; [done|]. simpl.
        rewrite E1. ring.
      - eexists. split; [done|]. simpl. reflexivity. }
    destruct (String.eqb (ctc_type args) "builtin").
    { intros [= <-]. apply Hsome. }
    destruct (String.eqb (ctc_type args) "warpctc"); [|done].
    intros [= <-]. apply Hsome.
Qed.

(** * Properties of the learning rate schedule *)

Section VaswaniProperties.
Context (inv_sqrt : Z → Q).

Lemma call_Return (self : VaswaniRule) (main : nat) (σ : Optimizers) :
  0 <= _t self →
  call inv_sqrt self main σ
  = (set_last_value (schedule inv_sqrt self (_t self + 1))
       (set_t (_t self + 1) self),
     alter (insert (_attr self) (schedule inv_sqrt self (_t self + 1)))
       (_get_optimizer self main) σ,
     Return ()).
Proof.
  intros Ht. unfold call, min_inv_sqrt. simpl.
  destruct (Z.eqb_spec (_t self + 1) 0); [lia|].
  destruct (Z.ltb_spec (_t self + 1) 0); [lia|]. done.
Qed.

(** X18. From a step count that is not negative, any number of calls of a
    [VaswaniRule] return; [_t] has then grown by the number of calls; no
    other optimizer and no other attribute of the optimizer has changed; and
    after at least one call the attribute [_attr] of the optimizer holds
    [_last_value], which is the value of the schedule at [_t]. *)
Theorem calls_spec (n : nat) (self : VaswaniRule) (main : nat) (σ : Optimizers) :
  0 <= _t self →
  ∃ self' σ',
    calls inv_sqrt n self main σ = (self', σ', Return ()) ∧
    _t self' = _t self + Z.of_nat n ∧
    (∀ o', o' ≠ _get_optimizer self main → σ' !! o' = σ !! o') ∧
    (∀ attrs, σ !! _get_optimizer self main = Some attrs →
       ∃ attrs', σ' !! _get_optimizer self main = Some attrs' ∧
         (∀ a, a ≠ _attr self → attrs' !! a = attrs !! a) ∧
         ((0 < n)%nat →
            attrs' !! _attr self = _last_value self' ∧
            _last_value self' = Some (schedule inv_sqrt self (_t self')))).
Proof.
  revert self σ. induction n as [|n IH]; intros self σ Ht.
  - exists self, σ. split_and!; [done|lia|done|]. intros attrs Hattrs.
    exists attrs. split_and!; [done..|lia].
  - cbn [calls]. rewrite call_Return by done.
    set (v := schedule inv_sqrt self (_t self + 1)).
    set (self1 := set_last_value v (set_t (_t self + 1) self)).
    destruct (IH self1 (alter (insert (_attr self) v) (_get_optimizer self main) σ))
      as (self' & σ' & Hcalls & IHt & IHother & IHattrs).
    { simpl. lia. }
    exists self', σ'. change (_get_optimizer self1 main)
      with (_get_optimizer self main) in *.
    change (_t self1) with (_t self + 1) in IHt.
    change (_attr self1) with (_attr self) in IHattrs.
    split_and!.
    + done.
    + lia.
    + intros o' Ho'. rewrite IHother by done. by apply lookup_alter_ne.
    + intros attrs Hattrs.
      destruct (IHattrs (<[_attr self := v]> attrs)) as (attrs' & Hl & Hsame & Hval).
      { by rewrite lookup_alter_eq, Hattrs. }
      exists attrs'. split_and!; [done| |].
      * intros a Ha. rewrite Hsame by done. by apply lookup_insert_ne.
      * intros _. destruct n as [|n].
        -- injection Hcalls as <- <-.
           rewrite lookup_alter_eq, Hattrs in Hl. injection Hl as <-.
           rewrite lookup_insert_eq. done.
        -- destruct Hval as [Hval1 Hval2]; [lia|]. split; [done|].
           rewrite Hval2. done.
Qed.

(** X19. The target of a [VaswaniRule] is never consulted: rules that
    differ in [_target] only write the same values to the same optimizer,
    in [initialize] and in every call, and stay equal but for [_target]. *)
Theorem target_unused (target : option Q) (n : nat) (self : VaswaniRule)
        (main : nat) (σ : Optimizers) :
  initialize (set_target target self) main σ
  = (let '(self', σ') := initialize self main σ in
     (set_target target self', σ')) ∧
  calls inv_sqrt n (set_target target self) main σ
  = (let '(self', σ', r) := calls inv_sqrt n self main σ in
     (set_target target self', σ', r)).
Proof.
  split.
  - unfold initialize. simpl.
    destruct (_init self); simpl; by destruct (_last_value self).
  - revert self σ. induction n as [|n IH]; intros self σ; [done|].
    cbn [calls]. unfold call. simpl.
    destruct (min_inv_sqrt _ _ _) as [m|e]; [|done]. simpl.
    apply (IH (set_last_value (_d_inv05 self * m)%Q (set_t (_t self + 1) self))).
Qed.

End VaswaniProperties.

(** * The further properties at work on the small models *)



Lemma beam_exceeds_vocabulary_witness :
  search Toy.imports (Toy.model Toy.speller) 2%nat None (Toy.recog_args 5 0 0)
    None (Some Toy.lm) = Raise IndexError ∧
  recognize_beam Toy.imports (Toy.model Toy.speller) 1 2%nat None 0%nat None
    (Some Toy.lm) {[0%nat := Toy.recog_args 5 0 0]}
  = ({[0%nat := Toy.recog_args 5 0 0]}, Raise IndexError).
Proof.
  apply (beam_exceeds_vocabulary Toy.imports (Toy.model Toy.speller) 2%nat None
           None (Some Toy.lm) 0 0%nat {[0%nat := Toy.recog_args 5 0 0]}
           (Toy.recog_args 5 0 0)).
  - simpl. lia.
  - vm_compute. reflexivity.
  - vm_compute. reflexivity.
Defined.

Lemma returned_hypotheses_complete_witness :
  let self := Toy.model Toy.speller in
  let args := Toy.recog_args 2 0 (1 # 2) in
  ∃ nbest,
    (recognize_beam Toy.imports self 1 4%nat None 0%nat None None
       {[0%nat := args]}).2 = Ok nbest ∧
    nbest ≠ [] ∧
    ∀ hyp, hyp ∈ nbest →
      ∃ toks tail,
        yseq hyp = sos self :: toks ++ tail ++ [eos self] ∧
        Forall (λ y, y ≠ eos self) toks ∧
        (length tail <= 1)%nat ∧
        Z.of_nat (length (yseq hyp)) <= maxlen self 4%nat args + 2.
Proof.
  intros self args. eexists.
  assert ((recognize_beam Toy.imports self 1 4%nat None 0%nat None None
             {[0%nat := args]}).2 = Ok _) as Hcall by (vm_compute; reflexivity).
  split; [exact Hcall|]. split; [discriminate|].
  assert (({[0%nat := args]} : gmap nat Namespace) !! 0%nat = Some args) as Hr
    by (vm_compute; reflexivity).
  apply (returned_hypotheses_complete Toy.imports self 4%nat None None None
           1 0%nat {[0%nat := args]} args _ Hr Hcall).
Defined.

Lemma logging_transparent_witness :
  let self := Toy.model Toy.speller in
  let σ : gmap nat Namespace := {[0%nat := Toy.recog_args 2 0 (1 # 2)]} in
  ∃ σ' nbest,
    recognize_beam Toy.imports self 1 4%nat None 0%nat (Some Small.char_list)
      None σ = (σ', Ok nbest) ∧
    recognize_beam Toy.imports self 1 4%nat None 0%nat None None σ = (σ', Ok nbest).
Proof.
  intros self σ. eexists _, _.
  assert (recognize_beam Toy.imports self 1 4%nat None 0%nat
            (Some Small.char_list) None σ = (_, Ok _)) as Hcall
    by (vm_compute; reflexivity).
  split; [exact Hcall|].
  exact (logging_transparent Toy.imports self 4%nat None (Some Small.char_list)
           None 1 0%nat σ _ _ Hcall).
Defined.


Lemma beam_size_zero_diverges_witness :
  (recognize_beam Toy.imports (Toy.model Toy.speller) 7 4%nat None 0%nat None None
     {[0%nat := Toy.recog_args 0 0 0]}).2 = OutOfFuel.
Proof.
  apply (beam_size_zero_diverges Toy.imports (Toy.model Toy.speller) 4%nat None
           None 7 0%nat {[0%nat := Toy.recog_args 0 0 0]} (Toy.recog_args 0 0 0)).
  - reflexivity.
  - vm_compute. reflexivity.
Defined.

Lemma empty_input_diverges_witness :
  (recognize_beam Toy.imports (Toy.model Toy.speller) 7 0%nat None 0%nat
     (Some Small.char_list) None {[0%nat := Toy.recog_args 2 0 0]}).2 = OutOfFuel.
Proof.
  apply (empty_input_diverges Toy.imports (Toy.model Toy.speller) 0%nat None
           (Some Small.char_list) None 7 0%nat {[0%nat := Toy.recog_args 2 0 0]}
           (Toy.recog_args 2 0 0)).
  - reflexivity.
  - reflexivity.
  - vm_compute. reflexivity.
Defined.

Lemma ended_list_grows_witness :
  let self := Toy.model Toy.speller in
  let args := Toy.recog_args 2 0 0 in
  ∃ res,
    search_loop Toy.imports self 4%nat None args None None [2; 3]%nat
      [Toy.hyp 0 [Toy.EOS; Toy.A; Toy.A]] [Toy.hyp (-1) [Toy.EOS; Toy.EOS]]
    = Ok res ∧
    [Toy.hyp (-1) [Toy.EOS; Toy.EOS]] `prefix_of` res ∧
    Z.of_nat (length res) <= 1 + 2 * 2.
Proof.
  intros self args. eexists.
  assert (search_loop Toy.imports self 4%nat None args None None [2; 3]%nat
            [Toy.hyp 0 [Toy.EOS; Toy.A; Toy.A]] [Toy.hyp (-1) [Toy.EOS; Toy.EOS]]
          = Ok _) as Hloop by (vm_compute; reflexivity).
  split; [exact Hloop|].
  apply (ended_list_grows Toy.imports self 4%nat None None None args [2; 3]%nat
           [Toy.hyp 0 [Toy.EOS; Toy.A; Toy.A]] [Toy.hyp (-1) [Toy.EOS; Toy.EOS]]).
  - simpl. lia.
  - exact Hloop.
Defined.

Lemma recognize_beam2_shape_witness :
  let self := Toy.model Toy.speller in
  ∃ nbest_hyps hyp toks,
    recognize_beam2 self id Toy.speller 3%nat (Toy.recog_args 1 0 0)
    = Return nbest_hyps ∧
    nbest_hyps = [hyp] ∧
    greedy_yseq hyp = sos self :: toks ++ [eos self] ∧
    Forall (λ y, y ≠ eos self) toks ∧
    (length (greedy_yseq hyp) <= 3 + 2)%nat.
Proof.
  intros self. eexists.
  assert (recognize_beam2 self id Toy.speller 3%nat (Toy.recog_args 1 0 0)
          = Return _) as Hcall by (vm_compute; reflexivity).
  destruct (recognize_beam2_shape self id Toy.speller 3%nat (Toy.recog_args 1 0 0)
              _ Hcall) as (hyp & toks & Hone & Hseq & Htoks & Hlen).
  exists hyp, toks. split_and!; [exact Hcall|exact Hone|exact Hseq|exact Htoks|exact Hlen].
Defined.

Lemma recognize_beam2_greedy_witness :
  let self := Toy.model Toy.speller in
  ∃ toks qs,
    recognize_beam2 self id Toy.speller 3%nat (Toy.recog_args 1 0 0)
    = Return [{| greedy_score := foldl Qplus 0%Q qs;
                 greedy_yseq := sos self :: toks ++ [eos self] |}] ∧
    length qs = S (length toks) ∧
    (∀ j y, toks !! j = Some y →
       best_token self Toy.speller 3%nat (sos self :: take j toks) y) ∧
    (∀ j q, qs !! j = Some q →
       best_prob self Toy.speller 3%nat (sos self :: take j toks) q).
Proof.
  intros self.
  assert (recognize_beam2 self id Toy.speller 3%nat (Toy.recog_args 1 0 0)
          = Return _) as Hcall by (vm_compute; reflexivity).
  destruct (recognize_beam2_greedy self id Toy.speller 3%nat (Toy.recog_args 1 0 0)
              _ Hcall) as (toks & qs & Hone & Hlen & Htoks & Hqs).
  exists toks, qs. split_and!; [|exact Hlen|exact Htoks|exact Hqs].
  rewrite Hcall. f_equal. exact Hone.
Defined.

Lemma loss_of_built_model_witness :
  ∃ self losses,
    init 4 Small.init_args (Return ()) = Return self ∧
    self_ctc self = Some WarpCTC ∧
    select_loss self (2 # 1) (λ _, 1 # 1) = Return losses ∧
    (loss losses == (3 # 10) * (1 # 1) + (1 - (3 # 10)) * (2 # 1))%Q.
Proof.
  eexists.
  assert (init 4 Small.init_args (Return ()) = Return _) as Hinit
    by (vm_compute; reflexivity).
  destruct (loss_of_built_model 4 Small.init_args (Return ()) _ (2 # 1)
              (λ _, 1 # 1) Hinit) as (_ & _ & _ & _ & losses & Hsel & Hloss).
  exists losses. split_and!; [exact Hinit|reflexivity|exact Hsel|exact Hloss].
Defined.

Lemma calls_spec_witness :
  ∃ self' σ',
    calls Small.inv_sqrt 1 (Small.rule 3) 0 Small.optimizers
    = (self', σ', Return ()) ∧
    _t self' = 4 ∧
    _last_value self' = Some ((1 # 2) * Small.inv_sqrt 4)%Q ∧
    σ' !! 0%nat = Some {[ "alpha" := ((1 # 2) * Small.inv_sqrt 4)%Q;
                          "eps" := 1 # 100 ]}.
Proof.
  destruct (calls_spec Small.inv_sqrt 1 (Small.rule 3) 0 Small.optimizers)
    as (self' & σ' & Hcalls & Ht & _ & _); [simpl; lia|].
  exists self', σ'. split; [exact Hcalls|]. split; [exact Ht|].
  injection Hcalls as <- <-. split; vm_compute; reflexivity.
Defined.
